(** * Bleeper: the word-redaction pipeline of [bleep.py]

    A shallow embedding of [bleep.py] (word normaliser, wordlist loader,
    banned-word matcher, the edit loop of [main]) together with the
    properties the specification states about it.

    Conventions of the embedding.
    - A Python [str] is a [string]; a character is an [ascii], read as the
      code point of the same number (U+0000 to U+00FF).  [str.lower],
      [str.isalpha] and [str.isspace] are written out for that range.
    - A Python [float] is the rational number it holds.  A time of the
      transcript is given as a rational and taken to the nearest float;
      a product or quotient of floats is the exact result rounded to the
      nearest float, ties to even ([Double]); [int(x)] is truncation toward
      zero.  Overflow to infinity is out of reach of a transcript's times
      and is not modelled.
    - A pydub [AudioSegment] is seen at two resolutions.  For lengths and
      control flow it is the list of its samples at the resolution of
      pydub's public interface, one element per millisecond: [len(a)],
      [a[i:j]], [a + b] and [AudioSegment.silent] are list operations.
      Tone synthesis, fades, gain and the loudness measure [dBFS] belong to
      pydub; they are the operations of the class [Pydub] and the
      development is parametric in them.  A call that raises is [None].
      For sample content, the module [Frames] holds the frames themselves
      at their frame rate, with pydub's conversion of positions and of
      frame rates written out. *)

From Stdlib Require Import ZArith QArith Qround Ascii String List Lia.
From stdpp Require Import base option list sorting gmap strings.
Import ListNotations.

Open Scope Z_scope.

(** ** Characters and strings *)

Module Str.

Definition code (c : ascii) : N := N_of_ascii c.

Definition between (lo hi : N) (c : ascii) : bool :=
  ((lo <=? code c) && (code c <=? hi))%N.

(** Code points with a distinct lowercase form: A-Z, and the Latin-1 capitals
    U+00C0..U+00DE without the multiplication sign U+00D7. *)
Definition has_lower (c : ascii) : bool :=
  between 65 90 c || between 192 214 c || between 216 222 c.

(** [c.lower()] for one character. *)
Definition lower_char (c : ascii) : ascii :=
  if has_lower c then ascii_of_N (code c + 32) else c.

(** [c.isalpha()]: the letters of U+0000..U+00FF (general category L). *)
Definition isalpha (c : ascii) : bool :=
  between 65 90 c || between 97 122 c
  || (code c =? 170)%N || (code c =? 181)%N || (code c =? 186)%N
  || between 192 214 c || between 216 246 c || between 248 255 c.

(** [c.isspace()]. *)
Definition isspace (c : ascii) : bool :=
  between 9 13 c || between 28 32 c || (code c =? 133)%N || (code c =? 160)%N.

(** [w.lower()] *)
Fixpoint lower (w : string) : string :=
  match w with
  | EmptyString => EmptyString
  | String c w' => String (lower_char c) (lower w')
  end.

(** ["".join(c for c in w if c.isalpha())] *)
Fixpoint join_alpha (w : string) : string :=
  match w with
  | EmptyString => EmptyString
  | String c w' => if isalpha c then String c (join_alpha w') else join_alpha w'
  end.

Definition is_empty (w : string) : bool :=
  match w with EmptyString => true | _ => false end.

(** [w.lstrip()] and [w.rstrip()] with no argument: whitespace is removed. *)
Fixpoint lstrip (w : string) : string :=
  match w with
  | EmptyString => EmptyString
  | String c w' => if isspace c then lstrip w' else w
  end.

Fixpoint rstrip (w : string) : string :=
  match w with
  | EmptyString => EmptyString
  | String c w' =>
      let r := rstrip w' in
      if isspace c && is_empty r then EmptyString else String c r
  end.

(** [w.strip()] *)
Definition strip (w : string) : string := lstrip (rstrip w).

(** [w.startswith("#")] *)
Definition startswith_hash (w : string) : bool :=
  match w with
  | String c _ => (code c =? 35)%N
  | EmptyString => false
  end.

(** Every character of [w] satisfies [p]. *)
Fixpoint all (p : ascii -> bool) (w : string) : bool :=
  match w with
  | EmptyString => true
  | String c w' => p c && all p w'
  end.

End Str.

(** ** Helpers of [bleep.py] *)

(** [clean_word(w)]: ["".join(c for c in w.lower() if c.isalpha())]. *)
Definition clean_word (w : string) : string := Str.join_alpha (Str.lower w).

(** One iteration of the loop of [load_wordlist]. *)
Definition add_line (words : gset string) (line : string) : gset string :=
  let word := Str.lower (Str.strip line) in
  if negb (Str.is_empty word) && negb (Str.startswith_hash word)
  then {[ word ]} ∪ words
  else words.

(** [load_wordlist(path)].  The file is given by its lines as the file
    iterator yields them, [None] when no file exists at [path] (the function
    then writes a placeholder and returns the empty set). *)
Definition load_wordlist (file : option (list string)) : gset string :=
  match file with
  | None => ∅
  | Some lines => fold_left add_line lines ∅
  end.

(** The form a banned-set entry has according to the loader contract of the
    specification: lowercase and free of punctuation, that is, made of
    letters only and unchanged by lowercasing. *)
Definition normalized_form (w : string) : Prop :=
  Str.all Str.isalpha w = true /\ Str.lower w = w.

(** A line feed. *)
Definition LF : string := String (ascii_of_N 10) EmptyString.

(** The loader contract in the words of the specification: every returned
    entry is lowercase and punctuation-free. *)
Definition loader_contract (lines : list string) : Prop :=
  forall x : string, x ∈ load_wordlist (Some lines) -> normalized_form x.

(** ** Numbers *)

(** Floats (IEEE 754 binary64), each taken as the rational it holds. *)
Module Double.

(** The integer nearest to [x], ties to the even one. *)
Definition round_half_even (x : Q) : Z :=
  let f := Qfloor x in
  match (x - inject_Z f ?= 1 # 2)%Q with
  | Lt => f
  | Gt => f + 1
  | Eq => if Z.even f then f else f + 1
  end.

(** Every finite float is a whole multiple of [2^-1074]; values are scaled
    by [grid] to count in that unit. *)
Definition grid : Z := 2 ^ 1074.

(** The multiple of [2^s] nearest to [x]. *)
Definition round_at (s : Z) (x : Q) : Q :=
  (inject_Z (round_half_even (x / inject_Z (2 ^ s))) * inject_Z (2 ^ s))%Q.

(** The spacing of the floats around the scaled value [x]: a significand
    has 53 bits, and below [2^53] units the spacing is one unit. *)
Definition shift (x : Q) : Z := Z.max 0 (Z.log2 (Qfloor x) - 52).

(** The float nearest to [q], for [0 <= q]. *)
Definition round_pos (q : Q) : Q :=
  let x := (q * inject_Z grid)%Q in
  (round_at (shift x) x / inject_Z grid)%Q.

(** The float nearest to [q]. *)
Definition round (q : Q) : Q :=
  if Qle_bool 0 q then round_pos q else (- round_pos (- q))%Q.

(** [x * y] and [x / y] on floats. *)
Definition mul (x y : Q) : Q := round (x * y).
Definition div (x y : Q) : Q := round (x / y).

End Double.

(** [int(x)] on a float: truncation toward zero. *)
Definition py_int (x : Q) : Z := Z.quot (Qnum x) (Zpos (Qden x)).

(** A loudness, as [dBFS] returns it.  The control flow depends only on
    whether the value is finite; a finite value is carried as a whole number
    of an unspecified unit, and the rounding of [a - b] is not modelled. *)
Inductive pyfloat : Type :=
  | Finite (x : Z)
  | PosInf
  | NegInf
  | NaN.

(** [math.isfinite(x)] *)
Definition isfinite (x : pyfloat) : bool :=
  match x with Finite _ => true | _ => false end.

(** [a - b] on floats. *)
Definition fsub (a b : pyfloat) : pyfloat :=
  match a, b with
  | NaN, _ | _, NaN => NaN
  | Finite x, Finite y => Finite (x - y)
  | Finite _, PosInf => NegInf
  | Finite _, NegInf => PosInf
  | PosInf, PosInf => NaN
  | PosInf, _ => PosInf
  | NegInf, NegInf => NaN
  | NegInf, _ => NegInf
  end.

(** ** Configuration *)

Definition PADDING_MS : Z := 80.
Definition BLEEP_FREQ_HZ : Z := 1000.

(** ** Transcript and matcher *)

(** One entry of [segment["words"]]: the keys ["word"], ["start"], ["end"].
    A time is the number the transcript gives; [hit_of] reads it as the
    float nearest to it. *)
Record word_info : Type := { word : string; start : Q; end_ : Q }.

(** One entry of [result["segments"]]; [words] is [None] when the segment has
    no ["words"] key ([segment.get("words", [])] then reads an empty list). *)
Record segment : Type := { words : option (list word_info) }.

(** A hit: the pair [(start_ms, end_ms)]. *)
Definition hit : Type := Z * Z.

(** The tuple appended to [hits] for a matched word:
    [int(word_info["start"] * 1000) - PADDING_MS] and
    [int(word_info["end"] * 1000) + PADDING_MS], the first raised to 0. *)
Definition hit_of (w : word_info) : hit :=
  let start_ms := py_int (Double.mul (Double.round (start w)) 1000) - PADDING_MS in
  let end_ms := py_int (Double.mul (Double.round (end_ w)) 1000) + PADDING_MS in
  (Z.max 0 start_ms, end_ms).

(** Body of the inner loop: [hits.append(...)] when the cleaned word is banned. *)
Definition scan_word (banned : gset string) (hits : list hit) (w : word_info)
  : list hit :=
  if decide (clean_word (word w) ∈ banned)
  then hits ++ [hit_of w]
  else hits.

(** Body of the outer loop. *)
Definition scan_segment (banned : gset string) (hits : list hit) (seg : segment)
  : list hit :=
  fold_left (scan_word banned) (default [] (words seg)) hits.

(** The two nested loops of [main] that fill [hits]. *)
Definition collect_hits (banned : gset string) (segments : list segment) : list hit :=
  fold_left (scan_segment banned) segments [].

(** Every word of the transcript, in order. *)
Definition transcript_words (segments : list segment) : list word_info :=
  concat (map (fun seg => default [] (words seg)) segments).

(** [clean_word(word_info["word"]) in banned] *)
Definition is_banned (banned : gset string) (w : word_info) : bool :=
  bool_decide (clean_word (word w) ∈ banned).

(** The raw interval in the words of the specification: the start is rounded
    down, the end is rounded up. *)
Definition raw_interval_spec (w : word_info) : hit :=
  (Z.max 0 (Qfloor (start w * 1000) - PADDING_MS),
   Qceiling (end_ w * 1000) + PADDING_MS).

(** The matcher in the words of the specification. *)
Definition matcher_rounds_up (banned : gset string) (segments : list segment) : Prop :=
  collect_hits banned segments
  = map raw_interval_spec (List.filter (is_banned banned) (transcript_words segments)).

(** ** Order of the edits *)

(** [b <= a] on tuples of integers (lexicographic). *)
Definition hit_ge (a b : hit) : Prop :=
  a.1 > b.1 \/ (a.1 = b.1 /\ a.2 >= b.2).

Global Instance hit_ge_dec : RelDecision hit_ge.
Proof. intros a b. unfold hit_ge. apply _. Defined.

(** [sorted(hits, reverse=True)].  The order is total and antisymmetric, so
    the descending list is the same whichever sorting algorithm builds it. *)
Definition sorted_reverse (hits : list hit) : list hit := merge_sort hit_ge hits.

(** ** Audio *)

(** The operations of pydub that work on sample data.  [None] stands for a
    raised exception. *)
Class Pydub : Type := {
  sample : Type;
  (** the sample of digital silence *)
  zero : sample;
  (** [Sine(freq).to_audio_segment(duration=duration)] *)
  Sine_to_audio_segment : Z -> Z -> option (list sample);
  (** [seg.fade_in(duration)] *)
  fade_in : list sample -> Z -> option (list sample);
  (** [seg.fade_out(duration)] *)
  fade_out : list sample -> Z -> option (list sample);
  (** [seg.dBFS] *)
  dBFS : list sample -> pyfloat;
  (** [seg.apply_gain(volume_change)] *)
  apply_gain : list sample -> pyfloat -> option (list sample)
}.

Inductive Mode : Type := bleep | silence.

Section Audio.
Context {pydub : Pydub}.

Definition AudioSegment : Type := list sample.

(** [len(audio)], in milliseconds. *)
Definition len (audio : AudioSegment) : Z := Z.of_nat (length audio).

(** Slices.  pydub first caps both bounds at [len(audio)].  All positions
    that [main] passes are non-negative; a negative position is read here as
    0, so statements about slices carry [0 <=] where it matters. *)

(** [audio[:stop]] *)
Definition slice_to (audio : AudioSegment) (stop : Z) : AudioSegment :=
  take (Z.to_nat (Z.min stop (len audio))) audio.

(** [audio[start:]] *)
Definition slice_from (audio : AudioSegment) (start : Z) : AudioSegment :=
  drop (Z.to_nat (Z.min start (len audio))) audio.

(** [audio[start:stop]] *)
Definition slice (audio : AudioSegment) (start stop : Z) : AudioSegment :=
  let s := Z.to_nat (Z.min start (len audio)) in
  let e := Z.to_nat (Z.min stop (len audio)) in
  take (e - s) (drop s audio).

(** [AudioSegment.silent(duration=duration)] at the millisecond resolution:
    [duration] ms of zero samples, nothing when [duration] is not positive.
    How many frames the clip holds is the matter of [Frames.silent]. *)
Definition silent (duration : Z) : AudioSegment :=
  replicate (Z.to_nat duration) zero.

(** [make_bleep(duration_ms, freq)] *)
Definition make_bleep (duration_ms freq : Z) : option AudioSegment :=
  tone ← Sine_to_audio_segment freq duration_ms;
  let fade := Z.min 30 (duration_ms / 4) in
  faded ← fade_in tone fade;
  fade_out faded fade.

(** [audio[start_ms:end_ms].dBFS], the loudness reference of the bleep branch. *)
Definition segment_vol (audio : AudioSegment) (start_ms end_ms : Z) : pyfloat :=
  dBFS (slice audio start_ms end_ms).

(** The [else] branch of the loop body: the tone and its gain. *)
Definition bleep_replacement (audio : AudioSegment) (start_ms end_ms duration : Z)
  : option AudioSegment :=
  replacement ← make_bleep duration BLEEP_FREQ_HZ;
  let vol := segment_vol audio start_ms end_ms in
  if isfinite vol
  then apply_gain replacement (fsub vol (dBFS replacement))
  else Some replacement.

(** [end_ms = min(end_ms, len(audio))] *)
Definition clamp_end (audio : AudioSegment) (h : hit) : Z := Z.min h.2 (len audio).

(** [duration = end_ms - start_ms], the argument of the synthesis call. *)
Definition duration (audio : AudioSegment) (h : hit) : Z := clamp_end audio h - h.1.

(** The clip built for one hit. *)
Definition replacement (mode : Mode) (audio : AudioSegment) (h : hit)
  : option AudioSegment :=
  match mode with
  | silence => Some (silent (duration audio h))
  | bleep => bleep_replacement audio h.1 (clamp_end audio h) (duration audio h)
  end.

(** One iteration of the edit loop of [main], at the millisecond resolution
    (for the frames, see [Frames.edit_step]). *)
Definition edit_step (mode : Mode) (audio : AudioSegment) (h : hit)
  : option AudioSegment :=
  clip ← replacement mode audio h;
  Some (slice_to audio h.1 ++ clip ++ slice_from audio (clamp_end audio h)).

(** The edit loop over an ordered list of hits. *)
Fixpoint edit_loop (mode : Mode) (audio : AudioSegment) (plan : list hit)
  : option AudioSegment :=
  match plan with
  | [] => Some audio
  | h :: plan' => audio' ← edit_step mode audio h; edit_loop mode audio' plan'
  end.

(** [for start_ms, end_ms in sorted(hits, reverse=True): ...] *)
Definition apply_plan (mode : Mode) (audio : AudioSegment) (hits : list hit)
  : option AudioSegment :=
  edit_loop mode audio (sorted_reverse hits).

(** The iteration for hit [h] is reached with the buffer [cur]: the hits
    before [h] in the plan have been applied without an exception. *)
Definition reaches (mode : Mode) (audio : AudioSegment) (plan : list hit)
    (cur : AudioSegment) (h : hit) : Prop :=
  exists pre post, plan = pre ++ h :: post /\ edit_loop mode audio pre = Some cur.

(** ** The run *)

(** How a run of [main] ends. *)
Inductive outcome : Type :=
  | Exit (status : Z)                          (* [sys.exit(status)] *)
  | Exported (edits : nat) (audio : AudioSegment)  (* [audio.export(output_path, ...)] *)
  | Uncaught.                                  (* an exception left [main] *)

Definition exit_status (o : outcome) : Z :=
  match o with Exit s => s | Exported _ _ => 0 | Uncaught => 1 end.

Definition edits_performed (o : outcome) : nat :=
  match o with Exported n _ => n | _ => 0%nat end.

Definition output_file (o : outcome) : option AudioSegment :=
  match o with Exported _ a => Some a | _ => None end.

(** [main()], after argument parsing.  [input_exists] is
    [os.path.exists(input_path)], [wordlist] the wordlist file, [segments]
    the transcript [result["segments"]] and [source] the decoded input. *)
Definition main (input_exists : bool) (wordlist : option (list string))
    (segments : list segment) (source : AudioSegment) (mode : Mode) : outcome :=
  if negb input_exists then Exit 1 else
  let banned := load_wordlist wordlist in
  if decide (banned = ∅) then Exit 0 else
  let hits := collect_hits banned segments in
  match hits with
  | [] => Exit 0
  | _ =>
      match apply_plan mode source hits with
      | Some audio => Exported (length hits) audio
      | None => Uncaught
      end
  end.

End Audio.

(** ** Properties of plans and of the pydub operations *)

(** A hit that is an interval of the time axis. *)
Definition interval (h : hit) : Prop := 0 <= h.1 <= h.2.

(** What pydub's operations do to the length of a segment: a tone has the
    requested duration; fades and gain keep the length. *)
Class PydubLengths (pydub : Pydub) : Prop := {
  Sine_length : forall (freq duration : Z) (tone : list sample),
    Sine_to_audio_segment freq duration = Some tone ->
    Z.of_nat (length tone) = duration;
  fade_in_length : forall (seg : list sample) (n : Z) (out : list sample),
    fade_in seg n = Some out -> length out = length seg;
  fade_out_length : forall (seg : list sample) (n : Z) (out : list sample),
    fade_out seg n = Some out -> length out = length seg;
  apply_gain_length : forall (seg : list sample) (g : pyfloat) (out : list sample),
    apply_gain seg g = Some out -> length out = length seg
}.

(** A fade needs a duration.  [fade_in(duration)] is
    [fade(from_gain=-120, duration=duration, start=0)]; with the duration 0
    and no [end] given, pydub's [fade] computes [end - start] on [None] and
    raises [TypeError]. *)
Class PydubFades (pydub : Pydub) : Prop := {
  fade_in_zero : forall seg : list sample, fade_in seg 0 = None
}.

(** ** The claims on the edit loop, in the words of the specification *)

Section Claims.
Context {pydub : Pydub}.

(** Consolidation discards degenerate intervals: synthesis is never called
    with a duration that is not positive. *)
Definition never_degenerate (mode : Mode) (audio : AudioSegment) (hits : list hit) : Prop :=
  forall (cur : AudioSegment) (h : hit),
    reaches mode audio (sorted_reverse hits) cur h -> 0 < duration cur h.

(** A duration that is not positive and reaches synthesis aborts the run. *)
Definition degenerate_aborts (mode : Mode) (audio : AudioSegment) (hits : list hit) : Prop :=
  forall (cur : AudioSegment) (h : hit),
    reaches mode audio (sorted_reverse hits) cur h -> duration cur h <= 0 ->
    apply_plan mode audio hits = None.

(** The loudness reference of every interval is measured on the source. *)
Definition reference_from_source (audio : AudioSegment) (hits : list hit) : Prop :=
  forall (cur : AudioSegment) (h : hit),
    reaches bleep audio (sorted_reverse hits) cur h ->
    segment_vol cur h.1 (clamp_end cur h) = segment_vol audio h.1 (clamp_end audio h).

End Claims.

(** ** A model of the pydub operations

    Used to run the loop on concrete buffers.  A sample is its level on the
    loudness scale in whole decibels ([None] is digital silence), [dBFS] is
    the peak level, a fade lowers the faded samples and a finite gain shifts
    every level.  A tone has the level [natural_level]: pydub measures
    -4.77 dBFS on the faded full-scale sine. *)

Module Levels.

Definition natural_level : Z := -5.

Definition louder (x : option Z) (acc : pyfloat) : pyfloat :=
  match x, acc with
  | None, _ => acc
  | Some v, Finite m => Finite (Z.max v m)
  | Some v, _ => Finite v
  end.

Definition peak (seg : list (option Z)) : pyfloat := fold_right louder NegInf seg.

Definition tone (freq duration : Z) : option (list (option Z)) :=
  if duration <? 0 then None
  else Some (replicate (Z.to_nat duration) (Some natural_level)).

Definition soften (x : option Z) : option Z := (fun v => v - 6) <$> x.

Definition fade_head (seg : list (option Z)) (n : Z) : option (list (option Z)) :=
  if n <=? 0 then None
  else Some (map soften (take (Z.to_nat n) seg) ++ drop (Z.to_nat n) seg).

Definition fade_tail (seg : list (option Z)) (n : Z) : option (list (option Z)) :=
  if n <=? 0 then None
  else let k := (length seg - Z.to_nat n)%nat in
       Some (take k seg ++ map soften (drop k seg)).

Definition gain (seg : list (option Z)) (g : pyfloat) : option (list (option Z)) :=
  match g with
  | Finite k => Some (map (fmap (Z.add k)) seg)
  | _ => None
  end.

Definition pydub : Pydub :=
  {| sample := option Z;
     zero := None;
     Sine_to_audio_segment := tone;
     fade_in := fade_head;
     fade_out := fade_tail;
     dBFS := peak;
     apply_gain := gain |}.

(** A buffer of [n] ms at one level. *)
Definition steady (n : nat) (level : Z) : list (option Z) := replicate n (Some level).

End Levels.

(** ** File names

    [os.path.splitext], [os.path.basename] and [os.path.join] as
    [posixpath] defines them, on [string]. *)

Module Path.

(** [s[:n]] and [s[n:]] for [0 <= n]. *)
Fixpoint take (n : nat) (s : string) : string :=
  match n, s with
  | S n', String c s' => String c (take n' s')
  | _, _ => EmptyString
  end.

Fixpoint drop (n : nat) (s : string) : string :=
  match n, s with
  | S n', String c s' => drop n' s'
  | _, _ => s
  end.

(** [s.rfind(c)]: the index of the last [c] in [s], [-1] when there is none. *)
Fixpoint rfind (c : ascii) (s : string) : Z :=
  match s with
  | EmptyString => -1
  | String x s' =>
      let r := rfind c s' in
      if 0 <=? r then r + 1 else if Ascii.eqb x c then 0 else -1
  end.

(** [s.startswith(pre)] *)
Definition startswith (pre s : string) : bool := String.prefix pre s.

(** [s.endswith(suf)] *)
Definition endswith (suf s : string) : bool :=
  (String.length suf <=? String.length s)%nat
  && String.eqb (drop (String.length s - String.length suf) s) suf.

Definition is_dot (c : ascii) : bool := Ascii.eqb c ".".

(** [genericpath._splitext(p, "/", None, ".")]: the split is at the last dot
    when that dot lies after the last slash and some character between the
    slash and the dot is not a dot. *)
Definition splitext (p : string) : string * string :=
  let sepIndex := rfind "/" p in
  let dotIndex := rfind "." p in
  let filename := take (Z.to_nat (dotIndex - (sepIndex + 1))) (drop (Z.to_nat (sepIndex + 1)) p) in
  if (sepIndex <? dotIndex) && negb (Str.all is_dot filename)
  then (take (Z.to_nat dotIndex) p, drop (Z.to_nat dotIndex) p)
  else (p, EmptyString).

(** [posixpath.basename(p)] *)
Definition basename (p : string) : string := drop (Z.to_nat (rfind "/" p + 1)) p.

(** [posixpath.join(a, b)] *)
Definition join (a b : string) : string :=
  if startswith "/" b then b
  else if Str.is_empty a || endswith "/" a then (a ++ b)%string
  else (a ++ "/" ++ b)%string.

End Path.

(** [output_path] of [bleep.py]: [base, ext = os.path.splitext(input_path)],
    then [f"{base}_clean{ext}"]. *)
Definition output_path (input_path : string) : string :=
  let '(base, ext) := Path.splitext input_path in
  (base ++ "_clean" ++ ext)%string.

(** ** [bleepvideo.py]

    The script drives external programs.  What it observes of them (tools
    found, return codes, files present) is the record [world]; what it asks
    of them is the list of [command]s it has run when it ends. *)

Module Video.

(** [is_url(s)] *)
Definition is_url (s : string) : bool :=
  Path.startswith "http://" s || Path.startswith "https://" s.

Record world : Type := {
  has_ffmpeg : bool;          (* [check_tool("ffmpeg")] *)
  has_yt_dlp : bool;          (* [check_tool("yt-dlp")] *)
  has_bleep_script : bool;    (* [os.path.exists(bleep_script)] *)
  cwd : string;               (* [os.getcwd()] *)
  tmpdir : string;            (* the temporary directory *)
  yt_dlp_returncode : Z;
  listing : list string;      (* [os.listdir(output_dir)] after the download *)
  video_exists : bool;        (* [os.path.exists(video_path)], local input *)
  extract_returncode : Z;     (* ffmpeg, audio extraction *)
  bleep_returncode : Z;       (* [bleep.py] *)
  clean_audio_exists : bool;  (* [os.path.exists(clean_audio)] *)
  merge_returncode : Z        (* ffmpeg, merge *)
}.

Inductive command : Type :=
  | RunYtDlp (url output_template : string)
  | RunExtract (video_path audio_path : string)
  | RunBleep (audio_path : string) (mode : Mode) (model : string)
  | RunMerge (video_path clean_audio_path output_path : string).

(** The end of a run: the commands run, the exit status, and the video the
    script reports as saved. *)
Record run : Type := { commands : list command; status : Z; saved : option string }.

Definition stop (cmds : list command) (code : Z) : run :=
  {| commands := cmds; status := code; saved := None |}.

(** [download_video(url, output_dir)]: the command it runs and the path it
    returns, [None] when it ends the run with [sys.exit(1)]. *)
Definition download_video (w : world) (url output_dir : string)
  : command * option string :=
  let output_template := Path.join output_dir "%(title)s.%(ext)s" in
  (RunYtDlp url output_template,
   if negb (yt_dlp_returncode w =? 0) then None
   else match List.filter (Path.endswith ".mp4") (listing w) with
        | [] => None
        | f :: _ => Some (Path.join output_dir f)
        end).

(** The list [missing] of [main]. *)
Definition missing (w : world) (input : string) : list string :=
  (if negb (has_ffmpeg w) then ["ffmpeg (run: brew install ffmpeg)"%string] else [])
  ++ (if is_url input && negb (has_yt_dlp w)
      then ["yt-dlp (run: brew install yt-dlp)"%string] else []).

(** Step 1 of [main]: the commands run, and the video path with the output
    path, [None] when the step ends the run with [sys.exit(1)]. *)
Definition get_video (w : world) (input : string)
  : list command * option (string * string) :=
  if is_url input then
    let '(cmd, downloaded) := download_video w input (tmpdir w) in
    ([cmd],
     match downloaded with
     | None => None
     | Some video_path =>
         let base_name := (Path.splitext (Path.basename video_path)).1 in
         Some (video_path, Path.join (cwd w) (base_name ++ "_clean.mp4"))
     end)
  else
    ([], if negb (video_exists w) then None
         else Some (input, ((Path.splitext input).1 ++ "_clean.mp4")%string)).

(** [main()], after argument parsing. *)
Definition main (w : world) (input : string) (mode : Mode) (model : string) : run :=
  match missing w input with
  | _ :: _ => stop [] 1
  | [] =>
    if negb (has_bleep_script w) then stop [] 1 else
    match get_video w input with
    | (cmds, None) => stop cmds 1
    | (cmds, Some (video_path, output_path)) =>
      let temp_audio := Path.join (tmpdir w) "audio.mp3" in
      let cmds := cmds ++ [RunExtract video_path temp_audio] in
      if negb (extract_returncode w =? 0) then stop cmds 1 else
      let cmds := cmds ++ [RunBleep temp_audio mode model] in
      if negb (bleep_returncode w =? 0) then stop cmds 1 else
      let clean_audio := Path.join (tmpdir w) "audio_clean.mp3" in
      if negb (clean_audio_exists w) then stop cmds 0 else
      let cmds := cmds ++ [RunMerge video_path clean_audio output_path] in
      if negb (merge_returncode w =? 0) then stop cmds 1 else
      {| commands := cmds; status := 0; saved := Some output_path |}
    end
  end.

(** What [bleepvideo.py] observes of a run of [bleep.py] that ended with
    [o] in a fresh temporary directory: the return code, and whether the
    clean audio file has been written. *)
Definition observes {pydub : Pydub} (w : world) (o : outcome) : Prop :=
  bleep_returncode w = exit_status o
  /\ clean_audio_exists w = bool_decide (is_Some (output_file o)).

End Video.

(** ** Frames

    pydub at the resolution of its data, for a mono segment of 16-bit
    samples (what [AudioSegment.silent] builds and what a mono 16-bit file
    decodes to): the frame rate and the frames.  Positions are converted as
    [_parse_position] does, in float arithmetic, and [+] brings both sides to
    the higher frame rate with [audioop.ratecv]. *)

Module Frames.

Record AudioSegment : Type := { frame_rate : Z; frames : list Z }.

(** [seg.frame_count()] *)
Definition frame_count (seg : AudioSegment) : Z := Z.of_nat (length (frames seg)).

(** [len(seg)]: [round(1000 * (self.frame_count() / self.frame_rate))] *)
Definition len (seg : AudioSegment) : Z :=
  Double.round_half_even
    (Double.mul 1000 (Double.div (inject_Z (frame_count seg)) (inject_Z (frame_rate seg)))).

(** [seg.frame_count(ms=ms)]: [ms * (self.frame_rate / 1000.0)] *)
Definition frame_count_ms (seg : AudioSegment) (ms : Z) : Q :=
  Double.mul (inject_Z ms) (Double.div (inject_Z (frame_rate seg)) 1000).

(** [seg._parse_position(val)] *)
Definition parse_position (seg : AudioSegment) (val : Z) : Z :=
  let val := if val <? 0 then len seg - Z.abs val else val in
  py_int (frame_count_ms seg val).

(** [data[s:e]] for bounds that are not negative. *)
Definition py_slice {A : Type} (data : list A) (s e : Z) : list A :=
  take (Z.to_nat e - Z.to_nat s) (drop (Z.to_nat s) data).

(** [seg[start:stop]], an absent bound being [None].  Frames that the
    positions ask for and the data does not hold are filled with silence,
    up to 2 ms of them; beyond that pydub raises [TooManyMissingFrames]. *)
Definition getitem (seg : AudioSegment) (start stop : option Z) : option AudioSegment :=
  let start := Z.min (default 0 start) (len seg) in
  let stop := Z.min (default (len seg) stop) (len seg) in
  let s := parse_position seg start in
  let e := parse_position seg stop in
  let data := py_slice (frames seg) s e in
  let missing_frames := (e - s) - Z.of_nat (length data) in
  if negb (Qle_bool (inject_Z missing_frames) (frame_count_ms seg 2)) then None
  else
    let silence := match data with [] => [] | _ => replicate (Z.to_nat missing_frames) 0 end in
    Some {| frame_rate := frame_rate seg; frames := data ++ silence |}.

(** [AudioSegment.silent(duration=duration)], at its default frame rate:
    [int(frame_rate * (duration / 1000.0))] frames of zero. *)
Definition silent (duration : Z) : AudioSegment :=
  let n := py_int (Double.mul 11025 (Double.div (inject_Z duration) 1000)) in
  {| frame_rate := 11025; frames := replicate (Z.to_nat n) 0 |}.

(** The inner loop of [audioop.ratecv] that writes output frames while
    [d >= 0].  A sample is held shifted by 16 bits; the quotient is computed
    in floats and truncated, which on these magnitudes is the truncated
    exact quotient.  [fuel] bounds the number of frames written. *)
Fixpoint ratecv_emit (fuel : nat) (inrate outrate prev cur d : Z) : list Z * Z :=
  match fuel with
  | O => ([], d)
  | S fuel' =>
      if d <? 0 then ([], d)
      else
        let cur_o := Z.quot (prev * d + cur * (outrate - d)) outrate in
        let (out, d') := ratecv_emit fuel' inrate outrate prev cur (d - inrate) in
        (Z.shiftr cur_o 16 :: out, d')
  end.

(** The outer loop of [audioop.ratecv]: one input frame is read while
    [d < 0]; the conversion ends when the input is used up. *)
Fixpoint ratecv_loop (inrate outrate prev cur d : Z) (input : list Z) : list Z :=
  match input with
  | [] => []
  | x :: input' =>
      let prev := cur in
      let cur := Z.shiftl x 16 in
      let d := d + outrate in
      let (out, d') := ratecv_emit (Z.to_nat (d / inrate + 1)) inrate outrate prev cur d in
      out ++ ratecv_loop inrate outrate prev cur d' input'
  end.

(** [audioop.ratecv(data, 2, 1, inrate, outrate, None)[0]] *)
Definition ratecv (input : list Z) (inrate outrate : Z) : list Z :=
  let g := Z.gcd inrate outrate in
  let inrate := inrate / g in
  let outrate := outrate / g in
  ratecv_loop inrate outrate 0 0 (- outrate) input.

(** [seg.set_frame_rate(frame_rate)] *)
Definition set_frame_rate (seg : AudioSegment) (rate : Z) : AudioSegment :=
  if rate =? frame_rate seg then seg
  else {| frame_rate := rate; frames := ratecv (frames seg) (frame_rate seg) rate |}.

(** [a + b]: [a.append(b, crossfade=0)], both brought to the higher rate. *)
Definition append (a b : AudioSegment) : AudioSegment :=
  let rate := Z.max (frame_rate a) (frame_rate b) in
  {| frame_rate := rate;
     frames := frames (set_frame_rate a rate) ++ frames (set_frame_rate b rate) |}.

(** One iteration of the edit loop of [main] in silence mode. *)
Definition edit_step (audio : AudioSegment) (h : hit) : option AudioSegment :=
  let end_ms := Z.min h.2 (len audio) in
  let duration := end_ms - h.1 in
  let replacement := silent duration in
  head ← getitem audio None (Some h.1);
  tail ← getitem audio (Some end_ms) None;
  Some (append (append head replacement) tail).

Fixpoint edit_loop (audio : AudioSegment) (plan : list hit) : option AudioSegment :=
  match plan with
  | [] => Some audio
  | h :: plan' => audio' ← edit_step audio h; edit_loop audio' plan'
  end.

(** The edit loop of [main] in silence mode over [sorted(hits, reverse=True)]. *)
Definition apply_plan (audio : AudioSegment) (hits : list hit) : option AudioSegment :=
  edit_loop audio (sorted_reverse hits).

(** The frame at index [i] of the result of a run, when there is one. *)
Definition frame_at (run : option AudioSegment) (i : nat) : option Z :=
  audio ← run; frames audio !! i.

End Frames.

(** ** Sample inputs *)

Module Samples.

(** A transcript of two segments, the second without words. *)
Definition talk : list segment :=
  [ {| words := Some [ {| word := " Hell,"; start := 1 # 100; end_ := 2 # 100 |};
                       {| word := " world"; start := 3 # 100; end_ := 5 # 100 |} ] |};
    {| words := None |} ].

(** A transcript whose only word lies ten seconds in. *)
Definition late : list segment :=
  [ {| words := Some [ {| word := "hell"; start := 10; end_ := 104 # 10 |} ] |} ].

(** Two banned words a twentieth of a second apart. *)
Definition close : list segment :=
  [ {| words := Some [ {| word := " hell"; start := 1; end_ := 12 # 10 |};
                       {| word := " Hell,"; start := 125 # 100; end_ := 15 # 10 |} ] |} ].

(** A transcript whose only word lies in the first second. *)
Definition early : list segment :=
  [ {| words := Some [ {| word := " hell"; start := 28 # 100; end_ := 68 # 100 |} ] |} ].

(** Two seconds of audio, quiet up to 1280 ms and loud after. *)
Definition quiet_then_loud : list (option Z) :=
  Levels.steady 1280 (-45) ++ Levels.steady 720 (-20).

(** [n] frames of a sawtooth that is never zero, from the frame of index [i] on. *)
Fixpoint sawtooth (n : nat) (i : Z) : list Z :=
  match n with
  | O => []
  | S n' => (i mod 1000 + 1) :: sawtooth n' (i + 1)
  end.

(** One second of mono audio at 44.1 kHz. *)
Definition second : Frames.AudioSegment :=
  {| Frames.frame_rate := 44100; Frames.frames := sawtooth (Z.to_nat 44100) 0 |}.

(** A wordlist file. *)
Definition wordlist : option (list string) :=
  Some [ ("# banned" ++ LF)%string; ("Hell" ++ LF)%string ].

(** A machine with ffmpeg and [bleep.py], given a local video that exists. *)
Definition world (bleep_rc : Z) (clean : bool) (merge_rc : Z) : Video.world :=
  {| Video.has_ffmpeg := true;
     Video.has_yt_dlp := false;
     Video.has_bleep_script := true;
     Video.cwd := "/home/me";
     Video.tmpdir := "/tmp/tmpk3";
     Video.yt_dlp_returncode := 0;
     Video.listing := [];
     Video.video_exists := true;
     Video.extract_returncode := 0;
     Video.bleep_returncode := bleep_rc;
     Video.clean_audio_exists := clean;
     Video.merge_returncode := merge_rc |}.

End Samples.

(** ** Normaliser: basic facts *)

Lemma lower_char_fixed (c : ascii) : Str.lower_char (Str.lower_char c) = Str.lower_char c.
Proof. destruct c as [[] [] [] [] [] [] [] []]; reflexivity. Qed.

Lemma isalpha_lower_char (c : ascii) : Str.isalpha (Str.lower_char c) = Str.isalpha c.
Proof. destruct c as [[] [] [] [] [] [] [] []]; reflexivity. Qed.

Lemma lower_idem (w : string) : Str.lower (Str.lower w) = Str.lower w.
Proof. induction w as [|c w IH]; simpl; [reflexivity|]. now rewrite lower_char_fixed, IH. Qed.

Lemma join_alpha_all (w : string) : Str.all Str.isalpha (Str.join_alpha w) = true.
Proof.
  induction w as [|c w IH]; simpl; [reflexivity|].
  destruct (Str.isalpha c) eqn:E; simpl; [now rewrite E|exact IH].
Qed.

Lemma join_alpha_fixed (w : string) : Str.all Str.isalpha w = true -> Str.join_alpha w = w.
Proof.
  induction w as [|c w IH]; simpl; [reflexivity|].
  intros [Hc Hw]%andb_prop. rewrite Hc. now rewrite IH.
Qed.

Lemma lower_join_alpha (w : string) :
  Str.lower (Str.join_alpha w) = Str.join_alpha (Str.lower w).
Proof.
  induction w as [|c w IH]; simpl; [reflexivity|].
  rewrite isalpha_lower_char. destruct (Str.isalpha c); simpl; now rewrite IH.
Qed.

Lemma clean_word_normalized (w : string) : normalized_form (clean_word w).
Proof.
  split; unfold clean_word.
  - apply join_alpha_all.
  - now rewrite lower_join_alpha, lower_idem.
Qed.

(** [clean_word] written with list operations on the characters. *)
Lemma clean_word_chars (w : string) :
  list_ascii_of_string (clean_word w)
  = List.filter Str.isalpha (List.map Str.lower_char (list_ascii_of_string w)).
Proof.
  unfold clean_word. induction w as [|c w IH]; simpl; [reflexivity|].
  destruct (Str.isalpha (Str.lower_char c)); simpl; now rewrite IH.
Qed.

(** C6: [clean_word] is a total function that lowercases its input and keeps
    exactly the alphabetic characters, in order: its characters are the
    lowercased characters of the input that are letters, none of them is a
    non-letter, and lowercasing leaves the result unchanged.  In particular
    [clean_word "Hell!!" = clean_word "hell" = "hell"] and
    [clean_word "123" = ""]. *)
Theorem clean_word_spec :
  (forall w : string,
     list_ascii_of_string (clean_word w)
     = List.filter Str.isalpha (List.map Str.lower_char (list_ascii_of_string w))
     /\ Str.all Str.isalpha (clean_word w) = true
     /\ Str.lower (clean_word w) = clean_word w)
  /\ clean_word "Hell!!" = "hell"%string
  /\ clean_word "hell" = "hell"%string
  /\ clean_word "123" = ""%string.
Proof.
  split; [|repeat split; reflexivity].
  intros w. split; [apply clean_word_chars|]. apply clean_word_normalized.
Qed.

(** C10: [clean_word] is idempotent. *)
Theorem clean_word_idempotent (w : string) : clean_word (clean_word w) = clean_word w.
Proof.
  destruct (clean_word_normalized w) as [Halpha Hlower].
  unfold clean_word at 1. rewrite Hlower. now apply join_alpha_fixed.
Qed.

(** ** Wordlist loader *)

(** The lines the loader keeps, and what it stores for them. *)
Lemma elem_of_fold_add_line (lines : list string) (acc : gset string) (x : string) :
  x ∈ fold_left add_line lines acc
  <-> x ∈ acc
      \/ exists line, line ∈ lines /\ x = Str.lower (Str.strip line)
                      /\ Str.is_empty x = false /\ Str.startswith_hash x = false.
Proof.
  revert acc. induction lines as [|l lines IH]; intros acc; simpl.
  - split; [auto|]. intros [H|(line & H & _)]; [exact H|]. now apply elem_of_nil in H.
  - rewrite IH. unfold add_line.
    destruct (Str.is_empty (Str.lower (Str.strip l))) eqn:He;
    destruct (Str.startswith_hash (Str.lower (Str.strip l))) eqn:Hh; simpl.
    all: split;
      [ intros [H|(line & H & Hx)]; [|right; exists line; split; [now right|exact Hx]]
      | intros [H|(line & [->|H]%elem_of_cons & -> & He' & Hh')];
        [| try congruence |right; exists line; auto] ].
    all: try (left; exact H).
    + apply elem_of_union in H as [->%elem_of_singleton|H]; [|now left].
      right. exists l. split; [now left|auto].
    + left. apply elem_of_union. now right.
    + left. apply elem_of_union. left. now apply elem_of_singleton.
Qed.

(** C7, as stated, fails: the entry stored for the line [Don't] keeps its
    apostrophe. *)
Lemma loader_keeps_punctuation :
  ~ loader_contract [("# my words" ++ LF)%string; ("Don't" ++ LF)%string].
Proof.
  intros H. destruct (H "don't"%string) as [Hall _]; [|discriminate Hall].
  unfold load_wordlist. apply elem_of_fold_add_line. right.
  exists ("Don't" ++ LF)%string. repeat split. apply elem_of_cons. right. now left.
Qed.

(** C7, amended: the loader returns exactly the lowercased, whitespace-stripped
    lines that are not empty and do not start with [#]; every entry is
    unchanged by lowercasing; a missing file gives the empty set. *)
Theorem load_wordlist_spec :
  load_wordlist None = ∅
  /\ forall (lines : list string) (x : string),
       (x ∈ load_wordlist (Some lines)
        <-> exists line, line ∈ lines /\ x = Str.lower (Str.strip line)
                         /\ Str.is_empty x = false /\ Str.startswith_hash x = false)
       /\ (x ∈ load_wordlist (Some lines) -> Str.lower x = x).
Proof.
  split; [reflexivity|]. intros lines x. unfold load_wordlist.
  rewrite elem_of_fold_add_line. split.
  - split; [intros [H|H]; [now apply not_elem_of_empty in H|exact H]|now right].
  - intros [H|(line & _ & -> & _)]; [now apply not_elem_of_empty in H|apply lower_idem].
Qed.

(** A file with a padded word, a comment line and a blank line. *)
Lemma load_wordlist_spec_run :
  "hell"%string ∈ load_wordlist (Some [("  Hell " ++ LF)%string; ("#heck" ++ LF)%string; LF])
  /\ "#heck"%string ∉ load_wordlist (Some [("  Hell " ++ LF)%string; ("#heck" ++ LF)%string; LF]).
Proof.
  destruct load_wordlist_spec as [_ Hspec].
  split.
  - apply (Hspec _ "hell"%string). exists ("  Hell " ++ LF)%string.
    repeat split. now left.
  - intros Hin. apply (Hspec _ "#heck"%string) in Hin as (_ & _ & _ & _ & Hhash).
    discriminate Hhash.
Defined.

(** ** Matcher *)

Lemma fold_scan_word (banned : gset string) (ws : list word_info) (hits : list hit) :
  fold_left (scan_word banned) ws hits
  = hits ++ map hit_of (List.filter (is_banned banned) ws).
Proof.
  revert hits. induction ws as [|w ws IH]; intros hits; simpl.
  - now rewrite app_nil_r.
  - rewrite IH. unfold scan_word, is_banned.
    destruct (decide (clean_word (word w) ∈ banned)) as [Hin|Hout].
    + rewrite bool_decide_true by exact Hin. simpl. now rewrite <- app_assoc.
    + now rewrite bool_decide_false by exact Hout.
Qed.

Lemma fold_scan_segment (banned : gset string) (segs : list segment) (hits : list hit) :
  fold_left (scan_segment banned) segs hits
  = hits ++ map hit_of (List.filter (is_banned banned) (transcript_words segs)).
Proof.
  revert hits. induction segs as [|seg segs IH]; intros hits; simpl.
  - now rewrite app_nil_r.
  - rewrite IH. unfold scan_segment. rewrite fold_scan_word.
    unfold transcript_words. simpl.
    rewrite List.filter_app, map_app. now rewrite <- app_assoc.
Qed.

(** The hits are the tuples of the matched words, in transcript order. *)
Lemma collect_hits_map (banned : gset string) (segs : list segment) :
  collect_hits banned segs
  = map hit_of (List.filter (is_banned banned) (transcript_words segs)).
Proof. unfold collect_hits. now rewrite fold_scan_segment. Qed.

(** ** Rounding to the nearest float *)

Lemma rhe_bounds (x : Q) :
  Qfloor x <= Double.round_half_even x <= Qfloor x + 1.
Proof.
  unfold Double.round_half_even.
  destruct (x - inject_Z (Qfloor x) ?= 1 # 2)%Q; [destruct (Z.even _)| |]; lia.
Qed.

Lemma rhe_mono (x y : Q) : (x <= y)%Q -> Double.round_half_even x <= Double.round_half_even y.
Proof.
  intros Hxy. pose proof (Qfloor_resp_le x y Hxy) as Hf.
  pose proof (rhe_bounds x) as Hx. pose proof (rhe_bounds y) as Hy.
  destruct (Z.eq_dec (Qfloor x) (Qfloor y)) as [Heq|Hne]; [|lia].
  unfold Double.round_half_even in *. rewrite <- Heq in *.
  assert (Hd : (x - inject_Z (Qfloor x) <= y - inject_Z (Qfloor x))%Q).
  { apply Qplus_le_l with (z := inject_Z (Qfloor x)). ring_simplify. exact Hxy. }
  destruct (Qcompare_spec (x - inject_Z (Qfloor x)) (1 # 2)) as [Ex|Lx|Gx];
  destruct (Qcompare_spec (y - inject_Z (Qfloor x)) (1 # 2)) as [Ey|Ly|Gy];
    try (destruct (Z.even (Qfloor x))); try lia; exfalso.
  all: apply (Qlt_irrefl (1 # 2));
    first
      [ apply Qle_lt_trans with (y - inject_Z (Qfloor x))%Q;
        [rewrite <- Ex; exact Hd|exact Ly]
      | apply Qlt_le_trans with (x - inject_Z (Qfloor x))%Q;
        [exact Gx|rewrite <- Ey; exact Hd]
      | apply Qlt_trans with (x - inject_Z (Qfloor x))%Q;
        [exact Gx|apply Qle_lt_trans with (y - inject_Z (Qfloor x))%Q; assumption] ].
Qed.

Lemma rhe_Z (z : Z) : Double.round_half_even (inject_Z z) = z.
Proof.
  unfold Double.round_half_even. rewrite Qfloor_Z.
  destruct (Qcompare_spec (inject_Z z - inject_Z z) (1 # 2)) as [E|L|G]; [exfalso|reflexivity|exfalso].
  - ring_simplify in E. discriminate E.
  - ring_simplify in G. discriminate G.
Qed.

Lemma pow2_pos (s : Z) : 0 <= s -> (0 < inject_Z (2 ^ s))%Q.
Proof.
  intros Hs. change 0%Q with (inject_Z 0). rewrite <- Zlt_Qlt. apply Z.pow_pos_nonneg; lia.
Qed.

Lemma round_at_mono (s : Z) (x y : Q) :
  0 <= s -> (x <= y)%Q -> (Double.round_at s x <= Double.round_at s y)%Q.
Proof.
  intros Hs Hxy. unfold Double.round_at. pose proof (pow2_pos s Hs) as Hp.
  apply Qmult_le_compat_r; [|now apply Qlt_le_weak].
  rewrite <- Zle_Qle. apply rhe_mono.
  apply Qmult_le_compat_r; [exact Hxy|]. apply Qlt_le_weak. now apply Qinv_lt_0_compat.
Qed.

(** A multiple of the spacing is kept. *)
Lemma round_at_multiple (s k : Z) :
  0 <= s -> (Double.round_at s (inject_Z (k * 2 ^ s)) == inject_Z (k * 2 ^ s))%Q.
Proof.
  intros Hs. unfold Double.round_at. pose proof (pow2_pos s Hs) as Hp.
  assert (He : (inject_Z (k * 2 ^ s) / inject_Z (2 ^ s) == inject_Z k)%Q).
  { rewrite inject_Z_mult. field. intros H0. rewrite H0 in Hp. discriminate Hp. }
  assert (Hr : Double.round_half_even (inject_Z (k * 2 ^ s) / inject_Z (2 ^ s)) = k).
  { rewrite <- (rhe_Z k) at 2. apply Z.le_antisymm; apply rhe_mono; rewrite He; apply Qle_refl. }
  rewrite Hr. now rewrite inject_Z_mult.
Qed.

Lemma round_at_nonneg (s : Z) (x : Q) : 0 <= s -> (0 <= x)%Q -> (0 <= Double.round_at s x)%Q.
Proof.
  intros Hs Hx. pose proof (round_at_multiple s 0 Hs) as H0. simpl in H0.
  rewrite <- H0. now apply round_at_mono.
Qed.

Lemma shift_nonneg (x : Q) : 0 <= Double.shift x.
Proof. unfold Double.shift. lia. Qed.

(** Rounding of scaled values is monotone, across spacings too. *)
Lemma round_scaled_mono (x y : Q) :
  (0 <= x)%Q -> (x <= y)%Q ->
  (Double.round_at (Double.shift x) x <= Double.round_at (Double.shift y) y)%Q.
Proof.
  intros Hx Hxy.
  pose proof (Qfloor_resp_le x y Hxy) as Hf.
  assert (Hfx : 0 <= Qfloor x) by (change 0 with (Qfloor 0); now apply Qfloor_resp_le).
  pose proof (Z.log2_le_mono _ _ Hf) as Hl.
  destruct (Z.eq_dec (Double.shift x) (Double.shift y)) as [Heq|Hne].
  - rewrite Heq. apply round_at_mono; [apply shift_nonneg|exact Hxy].
  - assert (Hlt : Double.shift x < Double.shift y) by (unfold Double.shift in *; lia).
    assert (Hpos : 0 < Qfloor y).
    { destruct (Z.eq_dec (Qfloor y) 0) as [E|E]; [|lia].
      unfold Double.shift in *. rewrite E in *. replace (Qfloor x) with 0 in * by lia.
      simpl in *. lia. }
    set (L := Z.log2 (Qfloor y)).
    assert (HL : Double.shift y = L - 52 /\ 0 < L - 52)
      by (unfold Double.shift in *; fold L in Hlt |- *; lia).
    destruct HL as [HL HLpos].
    pose proof (Z.log2_spec _ Hpos) as [Hlow _]. fold L in Hlow.
    assert (Hbx : (x <= inject_Z (2 ^ L))%Q).
    { apply Qlt_le_weak. eapply Qlt_le_trans; [apply Qlt_floor|].
      rewrite <- Zle_Qle.
      destruct (Z.eq_dec (Qfloor x) 0) as [E|E].
      - rewrite E. simpl. pose proof (Z.pow_pos_nonneg 2 L). lia.
      - assert (Hxpos : 0 < Qfloor x) by lia.
        pose proof (Z.log2_spec _ Hxpos) as [_ Hup].
        assert (Z.log2 (Qfloor x) + 1 <= L) by (unfold Double.shift in Hlt; lia).
        pose proof (Z.pow_le_mono_r 2 (Z.succ (Z.log2 (Qfloor x))) L). lia. }
    assert (Hby : (inject_Z (2 ^ L) <= y)%Q).
    { eapply Qle_trans; [|apply Qfloor_le]. now rewrite <- Zle_Qle. }
    assert (Hm1 : 2 ^ L = 2 ^ (L - Double.shift x) * 2 ^ Double.shift x).
    { rewrite <- Z.pow_add_r; [f_equal; lia|lia|apply shift_nonneg]. }
    assert (Hm2 : 2 ^ L = 2 ^ 52 * 2 ^ Double.shift y).
    { rewrite <- Z.pow_add_r; [f_equal; lia|lia|lia]. }
    apply Qle_trans with (inject_Z (2 ^ L)).
    + eapply Qle_trans; [apply round_at_mono; [apply shift_nonneg|exact Hbx]|].
      rewrite Hm1. rewrite round_at_multiple by apply shift_nonneg. apply Qle_refl.
    + eapply Qle_trans; [|apply round_at_mono; [apply shift_nonneg|exact Hby]].
      rewrite Hm2. rewrite round_at_multiple by apply shift_nonneg. apply Qle_refl.
Qed.

Lemma grid_pos : (0 < inject_Z Double.grid)%Q.
Proof. apply pow2_pos. lia. Qed.

Lemma round_pos_mono (x y : Q) :
  (0 <= x)%Q -> (x <= y)%Q -> (Double.round_pos x <= Double.round_pos y)%Q.
Proof.
  intros Hx Hxy. unfold Double.round_pos. pose proof grid_pos as Hg.
  apply Qmult_le_compat_r; [|apply Qlt_le_weak; now apply Qinv_lt_0_compat].
  apply round_scaled_mono.
  - apply Qmult_le_0_compat; [exact Hx|now apply Qlt_le_weak].
  - apply Qmult_le_compat_r; [exact Hxy|now apply Qlt_le_weak].
Qed.

Lemma round_pos_nonneg (x : Q) : (0 <= x)%Q -> (0 <= Double.round_pos x)%Q.
Proof.
  intros Hx. unfold Double.round_pos. pose proof grid_pos as Hg.
  apply Qmult_le_0_compat; [|apply Qlt_le_weak; now apply Qinv_lt_0_compat].
  apply round_at_nonneg; [apply shift_nonneg|].
  apply Qmult_le_0_compat; [exact Hx|now apply Qlt_le_weak].
Qed.

Lemma round_nonneg (x : Q) : (0 <= x)%Q -> (0 <= Double.round x)%Q.
Proof.
  intros Hx. unfold Double.round.
  apply Qle_bool_iff in Hx as Hb. rewrite Hb. now apply round_pos_nonneg.
Qed.

Lemma round_mono (x y : Q) :
  (0 <= x)%Q -> (x <= y)%Q -> (Double.round x <= Double.round y)%Q.
Proof.
  intros Hx Hxy. assert (Hy : (0 <= y)%Q) by (eapply Qle_trans; eassumption).
  unfold Double.round.
  apply Qle_bool_iff in Hx as Hbx. apply Qle_bool_iff in Hy as Hby.
  rewrite Hbx, Hby. now apply round_pos_mono.
Qed.

Lemma mul_nonneg (x y : Q) : (0 <= x)%Q -> (0 <= y)%Q -> (0 <= Double.mul x y)%Q.
Proof. intros Hx Hy. apply round_nonneg. now apply Qmult_le_0_compat. Qed.

Lemma mul_mono (x y k : Q) :
  (0 <= x)%Q -> (x <= y)%Q -> (0 <= k)%Q -> (Double.mul x k <= Double.mul y k)%Q.
Proof.
  intros Hx Hxy Hk. apply round_mono.
  - now apply Qmult_le_0_compat.
  - now apply Qmult_le_compat_r.
Qed.

(** On a non-negative float, [int] is the floor. *)
Lemma py_int_floor (x : Q) : (0 <= x)%Q -> py_int x = Qfloor x.
Proof.
  destruct x as [n d]. unfold Qle, py_int, Qfloor. simpl. intros H.
  apply Z.quot_div_nonneg; lia.
Qed.

(** The float product of a non-negative time and 1000 is not negative, and
    it grows with the time. *)
Lemma scaled_nonneg (x : Q) : (0 <= x)%Q -> (0 <= Double.mul (Double.round x) 1000)%Q.
Proof. intros Hx. apply mul_nonneg; [now apply round_nonneg|discriminate]. Qed.

Lemma scaled_mono (x y : Q) :
  (0 <= x)%Q -> (x <= y)%Q ->
  (Double.mul (Double.round x) 1000 <= Double.mul (Double.round y) 1000)%Q.
Proof.
  intros Hx Hxy. apply mul_mono; [now apply round_nonneg|now apply round_mono|discriminate].
Qed.

(** C2, as stated, fails: a word ending at 10.5009765625 s gets
    [end_ms = 10500 + 80], not [10501 + 80]. *)
Lemma end_ms_is_truncated :
  ~ matcher_rounds_up {[ "hell"%string ]}
      [ {| words := Some [ {| word := " Hell,"; start := 10; end_ := 10753 # 1024 |} ] |} ].
Proof. unfold matcher_rounds_up. rewrite collect_hits_map. vm_compute. discriminate. Qed.

(** C2, amended: for a transcript whose times are non-negative, the matcher
    emits, in transcript order, one interval per word whose cleaned text is
    banned, with [start_ms = max(0, floor(p) - 80)] and
    [end_ms = floor(q) + 80], where [p] and [q] are the float products
    [start * 1000] and [end * 1000]: both are truncated, the end is not
    rounded up. *)
Theorem raw_interval_truncates (banned : gset string) (segments : list segment) :
  List.Forall (fun w => (0 <= start w)%Q /\ (0 <= end_ w)%Q) (transcript_words segments) ->
  collect_hits banned segments
  = map (fun w => (Z.max 0 (Qfloor (Double.mul (Double.round (start w)) 1000) - 80),
                   Qfloor (Double.mul (Double.round (end_ w)) 1000) + 80))
        (List.filter (is_banned banned) (transcript_words segments)).
Proof.
  intros Hpos. rewrite collect_hits_map.
  apply map_ext_in. intros w [Hw _]%List.filter_In.
  rewrite List.Forall_forall in Hpos. destruct (Hpos w Hw) as [Hs He].
  unfold hit_of, PADDING_MS.
  now rewrite !py_int_floor by now apply scaled_nonneg.
Qed.

(** Scenario 1: the word "hell" from 10.0 s to 10.4 s gives [(9920, 10480)]. *)
Lemma raw_interval_truncates_scenario :
  collect_hits {[ "hell"%string ]}
    [ {| words := Some [ {| word := "hell"; start := 10; end_ := 104 # 10 |} ] |} ]
  = [ (9920, 10480) ].
Proof.
  rewrite (raw_interval_truncates {[ "hell"%string ]}
             [ {| words := Some [ {| word := "hell"; start := 10; end_ := 104 # 10 |} ] |} ]).
  - vm_compute. reflexivity.
  - repeat constructor; vm_compute; discriminate.
Defined.

(** The float product can fall below the exact one: [2.01 * 1000] is
    [2009.9999999999998], so a word from 2 s to 2.01 s ends at [2009 + 80]. *)
Lemma float_product_below :
  hit_of {| word := "hell"; start := 2; end_ := 201 # 100 |} = (1920, 2089).
Proof. vm_compute. reflexivity. Qed.

(** A word with [0 <= start <= end] gives an interval. *)
Lemma hit_of_interval (w : word_info) :
  (0 <= start w)%Q -> (start w <= end_ w)%Q -> interval (hit_of w).
Proof.
  intros Hs Hse.
  assert (He : (0 <= end_ w)%Q) by (eapply Qle_trans; eassumption).
  unfold interval, hit_of, PADDING_MS. simpl.
  rewrite !py_int_floor by now apply scaled_nonneg.
  assert (Hmono : Qfloor (Double.mul (Double.round (start w)) 1000)
                  <= Qfloor (Double.mul (Double.round (end_ w)) 1000)).
  { apply Qfloor_resp_le. now apply scaled_mono. }
  assert (H0 : 0 <= Qfloor (Double.mul (Double.round (start w)) 1000)).
  { change 0 with (Qfloor 0). apply Qfloor_resp_le. now apply scaled_nonneg. }
  lia.
Qed.

Lemma collect_hits_intervals (banned : gset string) (segments : list segment) :
  List.Forall (fun w => (0 <= start w)%Q /\ (start w <= end_ w)%Q)
    (transcript_words segments) ->
  Forall interval (collect_hits banned segments).
Proof.
  intros Hw. rewrite collect_hits_map. apply Forall_forall. intros h Hin.
  apply list_elem_of_In, in_map_iff in Hin as (w & <- & Hin).
  apply List.filter_In in Hin as [Hin _].
  rewrite List.Forall_forall in Hw. destruct (Hw w Hin). now apply hit_of_interval.
Qed.

(** ** Lengths of slices and clips *)

Section Lengths.
Context {pydub : Pydub}.

Lemma len_nonneg (a : AudioSegment) : 0 <= len a.
Proof. unfold len. lia. Qed.

Lemma len_app (a b : AudioSegment) : len (a ++ b) = len a + len b.
Proof. unfold len. rewrite length_app. lia. Qed.

Lemma len_slice_to (a : AudioSegment) (stop : Z) :
  0 <= stop -> len (slice_to a stop) = Z.min stop (len a).
Proof. intros H. unfold slice_to, len. rewrite length_take. lia. Qed.

Lemma len_slice_from (a : AudioSegment) (start : Z) :
  0 <= start -> len (slice_from a start) = len a - Z.min start (len a).
Proof. intros H. unfold slice_from, len. rewrite length_drop. lia. Qed.

Lemma len_silent (d : Z) : len (silent d) = Z.max 0 d.
Proof. unfold silent, len. rewrite length_replicate. lia. Qed.

(** In silence mode an iteration never raises and, on an interval, keeps the
    length. *)
Lemma silence_step_len (a : AudioSegment) (h : hit) :
  interval h ->
  exists a', edit_step silence a h = Some a' /\ len a' = len a.
Proof.
  intros [Hs He]. eexists. split; [reflexivity|].
  pose proof (len_nonneg a) as Hn.
  rewrite !len_app, len_silent, len_slice_to, len_slice_from.
  - unfold duration, clamp_end. lia.
  - unfold clamp_end. lia.
  - exact Hs.
Qed.

Lemma silence_loop_total (plan : list hit) :
  Forall interval plan ->
  forall a : AudioSegment, is_Some (edit_loop silence a plan).
Proof.
  induction 1 as [|h plan Hh _ IH]; intros a.
  - simpl. eauto.
  - destruct (silence_step_len a h Hh) as (a1 & H1 & _).
    cbn [edit_loop]. rewrite H1. simpl. apply IH.
Qed.

Lemma silence_loop_len (plan : list hit) :
  Forall interval plan ->
  forall a a' : AudioSegment, edit_loop silence a plan = Some a' -> len a' = len a.
Proof.
  induction 1 as [|h plan Hh _ IH]; intros a a' H.
  - simpl in H. congruence.
  - cbn [edit_loop] in H. destruct (silence_step_len a h Hh) as (a1 & H1 & Hlen).
    rewrite H1 in H. simpl in H. rewrite (IH _ _ H). exact Hlen.
Qed.

Lemma sorted_reverse_Forall (P : hit -> Prop) (hits : list hit) :
  Forall P (sorted_reverse hits) <-> Forall P hits.
Proof. unfold sorted_reverse. now rewrite merge_sort_Permutation. Qed.

Context {lengths : PydubLengths pydub}.

Lemma make_bleep_len (d freq : Z) (t : AudioSegment) :
  make_bleep d freq = Some t -> len t = d.
Proof.
  unfold make_bleep. intros H.
  destruct (Sine_to_audio_segment freq d) as [tone|] eqn:Ht; [|discriminate]. simpl in H.
  destruct (fade_in tone (Z.min 30 (d / 4))) as [faded|] eqn:Hf; [|discriminate]. simpl in H.
  apply fade_out_length in H. apply fade_in_length in Hf. apply Sine_length in Ht.
  unfold len. congruence.
Qed.

Lemma bleep_replacement_len (a : AudioSegment) (s e d : Z) (clip : AudioSegment) :
  bleep_replacement a s e d = Some clip -> len clip = d.
Proof.
  unfold bleep_replacement. intros H.
  destruct (make_bleep d BLEEP_FREQ_HZ) as [t|] eqn:Ht; [|discriminate]. simpl in H.
  apply make_bleep_len in Ht.
  destruct (isfinite (segment_vol a s e)).
  - apply apply_gain_length in H. unfold len in *. congruence.
  - congruence.
Qed.

(** In bleep mode an iteration that returns has kept the length, and its
    start lies inside the buffer. *)
Lemma bleep_step_len (a a' : AudioSegment) (h : hit) :
  0 <= h.1 ->
  edit_step bleep a h = Some a' ->
  len a' = len a /\ h.1 <= clamp_end a h.
Proof.
  intros Hs. unfold edit_step, replacement. intros H.
  destruct (bleep_replacement a h.1 (clamp_end a h) (duration a h)) as [clip|] eqn:Hc;
    [|discriminate].
  simpl in H. injection H as <-. apply bleep_replacement_len in Hc.
  pose proof (len_nonneg a) as Hn. pose proof (len_nonneg clip) as Hclip.
  unfold duration in Hc. split; [|lia].
  rewrite !len_app, Hc, len_slice_to, len_slice_from by (unfold clamp_end in *; lia).
  unfold clamp_end in *. lia.
Qed.

Lemma edit_step_len (mode : Mode) (a a' : AudioSegment) (h : hit) :
  interval h -> edit_step mode a h = Some a' -> len a' = len a.
Proof.
  intros Hi H. destruct mode.
  - apply bleep_step_len in H; [tauto|apply Hi].
  - destruct (silence_step_len a h Hi) as (a'' & Ha & Hlen). congruence.
Qed.

Lemma edit_loop_len (mode : Mode) (plan : list hit) :
  Forall interval plan ->
  forall a a' : AudioSegment, edit_loop mode a plan = Some a' -> len a' = len a.
Proof.
  induction 1 as [|h plan Hh _ IH]; intros a a' H; simpl in H.
  - congruence.
  - destruct (edit_step mode a h) as [a1|] eqn:H1; [|discriminate]. simpl in H.
    rewrite (IH _ _ H). now apply edit_step_len in H1.
Qed.

(** C1: applying all edits leaves the length of the buffer unchanged, in
    both modes, for every plan of intervals (overlapping or reaching past
    the end of the buffer alike); in silence mode the plan always applies. *)
Theorem duration_invariance (mode : Mode) (audio : AudioSegment) (hits : list hit) :
  Forall interval hits ->
  (mode = silence -> is_Some (apply_plan mode audio hits))
  /\ forall audio' : AudioSegment,
       apply_plan mode audio hits = Some audio' -> len audio' = len audio.
Proof.
  intros Hi. apply sorted_reverse_Forall in Hi. unfold apply_plan. split.
  - intros ->. now apply silence_loop_total.
  - now apply edit_loop_len.
Qed.

(** X12: a run on a transcript whose words have [0 <= start <= end] exports,
    if it exports, a buffer exactly as long as the source, in both modes. *)
Lemma main_keeps_duration (wordlist : option (list string)) (segments : list segment)
    (source out : AudioSegment) (mode : Mode) (exists_ : bool) (n : nat) :
  List.Forall (fun w => (0 <= start w)%Q /\ (start w <= end_ w)%Q)
    (transcript_words segments) ->
  main exists_ wordlist segments source mode = Exported n out ->
  len out = len source.
Proof.
  intros Hw. unfold main.
  destruct (negb exists_); [discriminate|].
  destruct (decide (load_wordlist wordlist = ∅)); [discriminate|].
  pose proof (collect_hits_intervals (load_wordlist wordlist) segments Hw) as Hi.
  destruct (collect_hits (load_wordlist wordlist) segments) as [|h hits] eqn:Hh;
    [discriminate|].
  destruct (apply_plan mode source (h :: hits)) as [a|] eqn:Ha; [|discriminate].
  intros [= _ <-]. unfold apply_plan in Ha.
  apply (edit_loop_len mode (sorted_reverse (h :: hits))); [|exact Ha].
  now apply sorted_reverse_Forall.
Qed.

End Lengths.

(** ** The model [Levels] satisfies the assumptions *)

Lemma Levels_lengths : PydubLengths Levels.pydub.
Proof.
  constructor; simpl.
  - intros freq d t. unfold Levels.tone. destruct (d <? 0) eqn:Hd; [discriminate|].
    intros [= <-]. rewrite length_replicate. lia.
  - intros seg n out. unfold Levels.fade_head. destruct (n <=? 0); [discriminate|].
    intros [= <-]. rewrite length_app, length_map, length_take, length_drop. lia.
  - intros seg n out. unfold Levels.fade_tail. destruct (n <=? 0); [discriminate|].
    intros [= <-]. rewrite length_app, length_map, length_take, length_drop. lia.
  - intros seg g out. unfold Levels.gain. destruct g; try discriminate.
    intros [= <-]. apply length_map.
Qed.

Lemma Levels_fades : PydubFades Levels.pydub.
Proof. constructor. reflexivity. Qed.

(** Scenario 3, scaled: two overlapping intervals, the later one reaching
    past the end of a 100 ms buffer, in bleep mode. *)
Lemma duration_invariance_overlap :
  Forall interval [(50, 70); (65, 120)]
  /\ exists audio' : list (option Z),
       @apply_plan Levels.pydub bleep (Levels.steady 100 (-20)) [(50, 70); (65, 120)]
       = Some audio'
       /\ @len Levels.pydub audio' = 100.
Proof.
  assert (Hi : Forall interval [(50, 70); (65, 120)])
    by (repeat constructor; simpl; lia).
  split; [exact Hi|].
  destruct (@apply_plan Levels.pydub bleep (Levels.steady 100 (-20)) [(50, 70); (65, 120)])
    as [audio'|] eqn:Hrun; [|vm_compute in Hrun; discriminate Hrun].
  exists audio'. split; [reflexivity|].
  exact (proj2 (@duration_invariance Levels.pydub Levels_lengths bleep
                  (Levels.steady 100 (-20)) [(50, 70); (65, 120)] Hi) audio' Hrun).
Defined.

(** ** Degenerate intervals *)

Section Degenerate.
Context {pydub : Pydub}.

Lemma edit_loop_app (mode : Mode) (pre post : list hit) (a : AudioSegment) :
  edit_loop mode a (pre ++ post)
  = cur ← edit_loop mode a pre; edit_loop mode cur post.
Proof.
  revert a. induction pre as [|h pre IH]; intros a; [reflexivity|].
  cbn [app edit_loop]. destruct (edit_step mode a h) as [a1|]; simpl; [apply IH|reflexivity].
Qed.

(** Every hit of the plan is reached, on a buffer as long as the source. *)
Lemma silence_reaches (audio : AudioSegment) (plan : list hit) (h : hit) :
  Forall interval plan -> h ∈ plan ->
  exists cur : AudioSegment, reaches silence audio plan cur h /\ len cur = len audio.
Proof.
  intros Hi Hin. destruct (list_elem_of_split _ _ Hin) as (pre & post & ->).
  apply Forall_app in Hi as [Hpre _].
  destruct (silence_loop_total _ Hpre audio) as [cur Hcur].
  exists cur. split; [now exists pre, post|].
  now apply (silence_loop_len _ Hpre).
Qed.

Context {lengths : PydubLengths pydub} {fades : PydubFades pydub}.

(** A tone is made for a duration of 4 ms or more only: a negative
    duration fails in the generator, and below 4 ms the fade lasts 0 ms. *)
Lemma make_bleep_duration (d freq : Z) (t : AudioSegment) :
  make_bleep d freq = Some t -> 4 <= d.
Proof.
  unfold make_bleep. intros H.
  destruct (Sine_to_audio_segment freq d) as [tone|] eqn:Ht; [|discriminate]. simpl in H.
  apply Sine_length in Ht.
  destruct (Z.lt_ge_cases d 4) as [Hlt|Hge]; [|exact Hge].
  replace (d / 4) with 0 in H by (symmetry; apply Z.div_small; lia).
  change (Z.min 30 0) with 0 in H. rewrite fade_in_zero in H. discriminate H.
Qed.

(** In bleep mode an iteration whose duration is not positive raises. *)
Lemma bleep_degenerate_raises (cur : AudioSegment) (h : hit) :
  duration cur h <= 0 -> edit_step bleep cur h = None.
Proof.
  intros Hd. unfold edit_step, replacement, bleep_replacement.
  destruct (make_bleep (duration cur h) BLEEP_FREQ_HZ) as [t|] eqn:Ht; [|reflexivity].
  apply make_bleep_duration in Ht. lia.
Qed.

Lemma reaches_len (mode : Mode) (audio cur : AudioSegment) (plan : list hit) (h : hit) :
  Forall interval plan -> reaches mode audio plan cur h -> len cur = len audio.
Proof.
  intros Hi (pre & post & -> & Hcur). apply Forall_app in Hi as [Hpre _].
  now apply (edit_loop_len mode pre).
Qed.

Lemma reaches_abort (audio cur : AudioSegment) (plan : list hit) (h : hit) :
  reaches bleep audio plan cur h -> duration cur h <= 0 ->
  edit_loop bleep audio plan = None.
Proof.
  intros (pre & post & -> & Hcur) Hd.
  rewrite edit_loop_app, Hcur. cbn [mbind option_bind edit_loop].
  now rewrite bleep_degenerate_raises.
Qed.

(** C3, amended: the loop caps [end_ms] at the length of the buffer and
    discards no interval; what a duration that is not positive does depends
    on the mode.  For a plan of intervals: in silence mode the run never
    aborts and every hit reaches synthesis, with the duration
    [min(end_ms, len(audio)) - start_ms], which is positive exactly when
    [start_ms < end_ms] and [start_ms < len(audio)]; in bleep mode a hit is
    reached with the same duration, a duration that is not positive aborts
    the run, and so a run that completes had [start_ms < end_ms] and
    [start_ms < len(audio)] at every hit. *)
Theorem clamp_without_discard (audio : AudioSegment) (hits : list hit) :
  Forall interval hits ->
  (is_Some (apply_plan silence audio hits)
   /\ forall h : hit, h ∈ hits ->
        exists cur : AudioSegment,
          reaches silence audio (sorted_reverse hits) cur h
          /\ duration cur h = Z.min h.2 (len audio) - h.1
          /\ (0 < duration cur h <-> h.1 < h.2 /\ h.1 < len audio))
  /\ degenerate_aborts bleep audio hits
  /\ (forall (cur : AudioSegment) (h : hit),
        reaches bleep audio (sorted_reverse hits) cur h ->
        duration cur h = Z.min h.2 (len audio) - h.1)
  /\ (forall out : AudioSegment,
        apply_plan bleep audio hits = Some out ->
        forall h : hit, h ∈ hits -> h.1 < h.2 /\ h.1 < len audio).
Proof.
  intros Hi. pose proof Hi as Hs. apply sorted_reverse_Forall in Hs.
  pose proof (len_nonneg audio) as Hn.
  assert (Hdur : forall (mode : Mode) (cur : AudioSegment) (h : hit),
            reaches mode audio (sorted_reverse hits) cur h ->
            duration cur h = Z.min h.2 (len audio) - h.1).
  { intros mode cur h Hr. unfold duration, clamp_end.
    now rewrite (reaches_len mode audio cur _ h Hs Hr). }
  split; [split|split; [|split]].
  - now apply silence_loop_total.
  - intros h Hin.
    assert (Hin' : h ∈ sorted_reverse hits).
    { unfold sorted_reverse. now rewrite merge_sort_Permutation. }
    destruct (silence_reaches audio _ h Hs Hin') as (cur & Hreach & Hlen).
    assert (Hh : interval h) by (rewrite Forall_forall in Hi; now apply Hi).
    exists cur. split; [exact Hreach|].
    rewrite (Hdur silence cur h Hreach). split; [reflexivity|].
    destruct Hh. lia.
  - intros cur h Hr Hd. now apply (reaches_abort audio cur _ h).
  - apply Hdur.
  - intros out Hout h Hin.
    assert (Hin' : h ∈ sorted_reverse hits).
    { unfold sorted_reverse. now rewrite merge_sort_Permutation. }
    destruct (list_elem_of_split _ _ Hin') as (pre & post & Hplan).
    unfold apply_plan in Hout. pose proof Hout as Hrun.
    rewrite Hplan, edit_loop_app in Hrun.
    destruct (edit_loop bleep audio pre) as [cur|] eqn:Hcur; [|discriminate].
    assert (Hr : reaches bleep audio (sorted_reverse hits) cur h) by now exists pre, post.
    destruct (Z.lt_ge_cases 0 (duration cur h)) as [Hpos|Hneg].
    + rewrite (Hdur bleep cur h Hr) in Hpos. lia.
    + rewrite (reaches_abort audio cur _ h Hr) in Hout by lia. discriminate.
Qed.

End Degenerate.

(** C3, as stated, fails: the word from 0.1 s to 0.2 s gives the hit
    [(20, 280)]; on a buffer of 10 ms nothing discards it and synthesis is
    asked for the duration [-10] in either mode, and in silence mode the run
    goes on to its end. *)
Lemma degenerate_reaches_synthesis :
  ~ @never_degenerate Levels.pydub silence (Levels.steady 10 (-20)) [(20, 280)]
  /\ ~ @never_degenerate Levels.pydub bleep (Levels.steady 10 (-20)) [(20, 280)]
  /\ ~ @degenerate_aborts Levels.pydub silence (Levels.steady 10 (-20)) [(20, 280)].
Proof.
  assert (Hr : forall mode : Mode,
            @reaches Levels.pydub mode (Levels.steady 10 (-20))
              (sorted_reverse [(20, 280)]) (Levels.steady 10 (-20)) (20, 280)).
  { intros mode. exists [], []. split; reflexivity. }
  split; [|split]; intros H.
  - specialize (H _ _ (Hr silence)). vm_compute in H. discriminate H.
  - specialize (H _ _ (Hr bleep)). vm_compute in H. discriminate H.
  - specialize (H _ _ (Hr silence)).
    assert (Hd : @duration Levels.pydub (Levels.steady 10 (-20)) (20, 280) <= 0)
      by (vm_compute; discriminate).
    specialize (H Hd). vm_compute in H. discriminate H.
Qed.

(** A plan whose first hit starts past the end of a 10 ms buffer: the run
    completes in silence mode and aborts in bleep mode. *)
Lemma clamp_without_discard_run :
  Forall interval [(20, 280); (2, 6)]
  /\ is_Some (@apply_plan Levels.pydub silence (Levels.steady 10 (-20)) [(20, 280); (2, 6)])
  /\ @apply_plan Levels.pydub bleep (Levels.steady 10 (-20)) [(20, 280); (2, 6)] = None.
Proof.
  assert (Hi : Forall interval [(20, 280); (2, 6)]) by (repeat constructor; simpl; lia).
  split; [exact Hi|].
  destruct (@clamp_without_discard Levels.pydub Levels_lengths Levels_fades
              (Levels.steady 10 (-20)) [(20, 280); (2, 6)] Hi)
    as ([Hrun _] & Habort & _).
  split; [exact Hrun|].
  apply (Habort (Levels.steady 10 (-20)) (20, 280)).
  - exists [], [(2, 6)]. split; reflexivity.
  - vm_compute. discriminate.
Defined.

(** ** Bleep mode: the loudness reference *)

(** C4: the code measures the reference on the buffer it is editing, not on
    the source.  The words " damn" at 1.0 s to 1.2 s and "hell" at 1.25 s to
    1.5 s give the hits [(920, 1280)] and [(1170, 1580)].  The later hit is
    replaced first, so when the reference of [(920, 1280)] is measured, the
    last 110 ms of the measured range hold the tone already: on a source
    that is quiet up to 1280 ms and loud after, the reference is the level
    of that tone, not the level of the source. *)
Theorem reference_sees_earlier_tone :
  collect_hits (load_wordlist Samples.wordlist) Samples.close = [(920, 1280); (1170, 1580)]
  /\ exists cur clip : list (option Z),
       @reaches Levels.pydub bleep Samples.quiet_then_loud
         (sorted_reverse [(920, 1280); (1170, 1580)]) cur (920, 1280)
       /\ @replacement Levels.pydub bleep Samples.quiet_then_loud (1170, 1580) = Some clip
       /\ @slice Levels.pydub cur 920 1280
          = @slice Levels.pydub Samples.quiet_then_loud 920 1170 ++ take 110 clip
       /\ @segment_vol Levels.pydub Samples.quiet_then_loud 920 1280 = Finite (-45)
       /\ @segment_vol Levels.pydub cur 920 (@clamp_end Levels.pydub cur (920, 1280))
          = Finite (-20)
       /\ ~ @reference_from_source Levels.pydub Samples.quiet_then_loud
              [(920, 1280); (1170, 1580)].
Proof.
  split; [vm_compute; reflexivity|].
  destruct (@edit_loop Levels.pydub bleep Samples.quiet_then_loud [(1170, 1580)])
    as [cur|] eqn:Hcur; [|vm_compute in Hcur; discriminate Hcur].
  destruct (@replacement Levels.pydub bleep Samples.quiet_then_loud (1170, 1580))
    as [clip|] eqn:Hclip; [|vm_compute in Hclip; discriminate Hclip].
  assert (Hr : @reaches Levels.pydub bleep Samples.quiet_then_loud
                 (sorted_reverse [(920, 1280); (1170, 1580)]) cur (920, 1280)).
  { exists [(1170, 1580)], []. split; [reflexivity|exact Hcur]. }
  assert (Hsrc : @segment_vol Levels.pydub Samples.quiet_then_loud 920 1280 = Finite (-45))
    by (vm_compute; reflexivity).
  assert (Hnow : @segment_vol Levels.pydub cur 920 (@clamp_end Levels.pydub cur (920, 1280))
                 = Finite (-20)).
  { vm_compute in Hcur. injection Hcur as <-. vm_compute. reflexivity. }
  exists cur, clip. split; [exact Hr|]. split; [reflexivity|].
  split; [|split; [exact Hsrc|split; [exact Hnow|]]].
  - vm_compute in Hcur, Hclip. injection Hcur as <-. injection Hclip as <-.
    vm_compute. reflexivity.
  - intros H. specialize (H cur (920, 1280) Hr).
    pose proof (eq_trans (eq_sym Hnow) (eq_trans H Hsrc)) as Hbad. discriminate Hbad.
Qed.

(** ** Silence mode: a second application *)

(** C9: applying the plan a second time does not give the buffer of the
    first application.  The word " hell" from 0.28 s to 0.68 s gives the hit
    [(200, 760)].  On one second of mono audio at 44.1 kHz the positions
    200 ms and 760 ms are 24696 frames apart, but the silent clip, built at
    11025 Hz and brought to 44.1 kHz by [+], has 24693 frames.  The first
    application leaves 44097 frames, the audio after the hit 3 frames
    earlier than in the source; the second moves it 3 frames more: the frame
    of index 40000 is the source frame 40003 after one application and the
    source frame 40006 after two. *)
Theorem silence_twice_shifts :
  let hits := collect_hits (load_wordlist Samples.wordlist) Samples.early in
  let once := Frames.apply_plan Samples.second hits in
  let twice := audio ← once; Frames.apply_plan audio hits in
  hits = [(200, 760)]
  /\ Frames.parse_position Samples.second 760 - Frames.parse_position Samples.second 200
     = 24696
  /\ Frames.frame_count (Frames.set_frame_rate (Frames.silent 560) 44100) = 24693
  /\ Frames.frame_count <$> once = Some 44097
  /\ Frames.frame_count <$> twice = Some 44097
  /\ Frames.frames Samples.second !! Z.to_nat 40003 = Some 4
  /\ Frames.frames Samples.second !! Z.to_nat 40006 = Some 7
  /\ Frames.frame_at once (Z.to_nat 40000) = Some 4
  /\ Frames.frame_at twice (Z.to_nat 40000) = Some 7
  /\ twice <> once.
Proof.
  intros hits once twice.
  assert (H1 : Frames.frame_at once (Z.to_nat 40000) = Some 4) by (vm_compute; reflexivity).
  assert (H2 : Frames.frame_at twice (Z.to_nat 40000) = Some 7) by (vm_compute; reflexivity).
  do 7 (split; [vm_compute; reflexivity|]).
  split; [exact H1|]. split; [exact H2|].
  intros Heq. rewrite Heq, H1 in H2. discriminate H2.
Qed.

(** ** The run *)

Section Run.
Context {pydub : Pydub}.

Lemma filter_none_banned (banned : gset string) (ws : list word_info) :
  Forall (fun w => clean_word (word w) ∉ banned) ws ->
  List.filter (is_banned banned) ws = [].
Proof.
  induction 1 as [|w ws Hw _ IH]; simpl; [reflexivity|].
  unfold is_banned at 1. now rewrite bool_decide_false.
Qed.

(** C8: when the wordlist yields no word, or no word of the transcript is
    banned, a run on an existing input ends by [sys.exit(0)]: the exit
    status is 0, no edit is made and no file is exported. *)
Theorem noop_exit (wordlist : option (list string)) (segments : list segment)
    (source : AudioSegment) (mode : Mode) :
  load_wordlist wordlist = ∅
  \/ Forall (fun w => clean_word (word w) ∉ load_wordlist wordlist)
       (transcript_words segments) ->
  main true wordlist segments source mode = Exit 0
  /\ exit_status (main true wordlist segments source mode) = 0
  /\ edits_performed (main true wordlist segments source mode) = 0%nat
  /\ output_file (main true wordlist segments source mode) = None.
Proof.
  intros H.
  assert (Hexit : main true wordlist segments source mode = Exit 0).
  { unfold main. simpl.
    destruct (decide (load_wordlist wordlist = ∅)) as [He|Hne]; [reflexivity|].
    destruct H as [H|H]; [contradiction|].
    now rewrite collect_hits_map, filter_none_banned. }
  rewrite Hexit. repeat split.
Qed.

End Run.

(** Scenario 2: an empty wordlist file. *)
Lemma noop_exit_empty_wordlist :
  load_wordlist (Some [("# Add one word per line." ++ LF)%string; LF]) = ∅
  /\ @main Levels.pydub true (Some [("# Add one word per line." ++ LF)%string; LF])
       [ {| words := Some [ {| word := "hell"; start := 10; end_ := 104 # 10 |} ] |} ]
       (Levels.steady 100 (-20)) silence
     = Exit 0.
Proof.
  assert (He : load_wordlist (Some [("# Add one word per line." ++ LF)%string; LF]) = ∅)
    by reflexivity.
  split; [exact He|].
  exact (proj1 (@noop_exit Levels.pydub _
                  [ {| words := Some [ {| word := "hell"; start := 10; end_ := 104 # 10 |} ] |} ]
                  (Levels.steady 100 (-20)) silence (or_introl He))).
Defined.

(** ** File names *)

Lemma str_app_cons (c : ascii) (s t : string) :
  (String c s ++ t)%string = String c (s ++ t)%string.
Proof. reflexivity. Qed.

Lemma path_take_drop (n : nat) (s : string) : (Path.take n s ++ Path.drop n s)%string = s.
Proof.
  revert s. induction n as [|n IH]; intros [|c s]; simpl; try reflexivity.
  rewrite str_app_cons. f_equal. apply IH.
Qed.

Lemma str_length_app (s t : string) :
  String.length (s ++ t) = (String.length s + String.length t)%nat.
Proof.
  induction s as [|c s IH]; [reflexivity|]. rewrite str_app_cons. simpl. now rewrite IH.
Qed.

Lemma str_app_assoc (s t u : string) : ((s ++ t) ++ u = s ++ t ++ u)%string.
Proof.
  induction s as [|c s IH]; [reflexivity|]. rewrite !str_app_cons. now rewrite IH.
Qed.

Lemma str_app_nil_r (s : string) : (s ++ "")%string = s.
Proof.
  induction s as [|c s IH]; [reflexivity|]. rewrite str_app_cons. now rewrite IH.
Qed.

Lemma path_take_app_length (s t : string) : Path.take (String.length s) (s ++ t) = s.
Proof.
  induction s as [|c s IH]; [now destruct t|]. rewrite str_app_cons. simpl. now rewrite IH.
Qed.

Lemma path_drop_app_length (s t : string) : Path.drop (String.length s) (s ++ t) = t.
Proof.
  induction s as [|c s IH]; [reflexivity|]. rewrite str_app_cons. simpl. exact IH.
Qed.

Lemma path_take_length (n : nat) (s : string) :
  String.length (Path.take n s) = Nat.min n (String.length s).
Proof.
  revert s. induction n as [|n IH]; intros [|c s]; simpl; try reflexivity.
  now rewrite IH.
Qed.

Lemma rfind_range (c : ascii) (s : string) :
  -1 <= Path.rfind c s < Z.of_nat (String.length s).
Proof.
  induction s as [|x s IH]; simpl; [lia|].
  destruct (0 <=? Path.rfind c s) eqn:E; [lia|].
  destruct (Ascii.eqb x c); lia.
Qed.

(** The last occurrence in a concatenation. *)
Lemma rfind_app (c : ascii) (s t : string) :
  Path.rfind c (s ++ t)
  = if 0 <=? Path.rfind c t then Z.of_nat (String.length s) + Path.rfind c t
    else Path.rfind c s.
Proof.
  induction s as [|x s IH].
  - change ("" ++ t)%string with t. simpl.
    destruct (0 <=? Path.rfind c t) eqn:E; [lia|].
    pose proof (rfind_range c t). lia.
  - rewrite str_app_cons. cbn [Path.rfind String.length]. rewrite IH.
    destruct (0 <=? Path.rfind c t) eqn:E; [|reflexivity].
    pose proof (rfind_range c t).
    destruct (0 <=? Z.of_nat (String.length s) + Path.rfind c t) eqn:E2; lia.
Qed.

Lemma path_drop_length (n : nat) (s : string) :
  String.length (Path.drop n s) = (String.length s - n)%nat.
Proof.
  revert s. induction n as [|n IH]; intros [|c s]; simpl; try reflexivity.
  apply IH.
Qed.

Lemma path_drop_app_le (n : nat) (s t : string) :
  (n <= String.length s)%nat -> Path.drop n (s ++ t) = (Path.drop n s ++ t)%string.
Proof.
  revert s. induction n as [|n IH]; intros [|c s] Hn; simpl in Hn; try reflexivity; try lia.
  rewrite str_app_cons. simpl. apply IH. lia.
Qed.

Lemma path_take_app_le (n : nat) (s t : string) :
  (n <= String.length s)%nat -> Path.take n (s ++ t) = Path.take n s.
Proof.
  revert s. induction n as [|n IH]; intros [|c s] Hn; simpl in Hn; try reflexivity; try lia.
  rewrite str_app_cons. simpl. f_equal. apply IH. lia.
Qed.

Lemma all_app (p : ascii -> bool) (s t : string) :
  Str.all p (s ++ t) = Str.all p s && Str.all p t.
Proof.
  induction s as [|c s IH]; [reflexivity|]. rewrite str_app_cons. simpl.
  rewrite IH. now rewrite andb_assoc.
Qed.

(** From the last occurrence on, the string is [c] followed by no [c]. *)
Lemma rfind_drop (c : ascii) (s : string) :
  0 <= Path.rfind c s ->
  exists rest, Path.drop (Z.to_nat (Path.rfind c s)) s = String c rest
               /\ Path.rfind c rest = -1.
Proof.
  induction s as [|x s IH]; cbn [Path.rfind]; [lia|].
  pose proof (rfind_range c s) as Hr.
  destruct (0 <=? Path.rfind c s) eqn:E.
  - intros _. destruct IH as (rest & Hd & Hrest); [lia|]. exists rest.
    replace (Z.to_nat (Path.rfind c s + 1)) with (S (Z.to_nat (Path.rfind c s))) by lia.
    simpl. now split.
  - destruct (Ascii.eqb_spec x c) as [->|Hne]; [|lia].
    intros _. exists s. split; [reflexivity|lia].
Qed.

(** Past the last occurrence there is no [c]. *)
Lemma rfind_drop_lt (c : ascii) (n : nat) (s : string) :
  Path.rfind c s < Z.of_nat n -> Path.rfind c (Path.drop n s) = -1.
Proof.
  revert s. induction n as [|n IH]; intros s H.
  - pose proof (rfind_range c s). destruct s; simpl in *; lia.
  - destruct s as [|x s]; [reflexivity|]. simpl Path.drop. apply IH.
    cbn [Path.rfind] in H. pose proof (rfind_range c s).
    destruct (0 <=? Path.rfind c s) eqn:E; lia.
Qed.

Lemma rfind_cons_none (c x : ascii) (s : string) :
  Path.rfind c (String x s) = -1 -> Path.rfind c s = -1.
Proof.
  cbn [Path.rfind]. pose proof (rfind_range c s).
  destruct (0 <=? Path.rfind c s) eqn:E; lia.
Qed.

Lemma rfind_app_none (c : ascii) (s t : string) :
  Path.rfind c t = -1 -> Path.rfind c (s ++ t) = Path.rfind c s.
Proof. intros H. rewrite rfind_app, H. reflexivity. Qed.

Lemma rfind_app_some (c : ascii) (s t : string) :
  0 <= Path.rfind c t ->
  Path.rfind c (s ++ t) = Z.of_nat (String.length s) + Path.rfind c t.
Proof.
  intros H. rewrite rfind_app. destruct (0 <=? Path.rfind c t) eqn:E; [reflexivity|lia].
Qed.

(** A name made of a stem that is not all dots and holds no slash, a dot,
    and an extension without dot or slash splits at that dot, after any
    directory part. *)
Lemma splitext_stem (d stem ext : string) :
  Path.rfind "/" stem = -1 -> Str.all Path.is_dot stem = false ->
  Path.rfind "." ext = -1 -> Path.rfind "/" ext = -1 ->
  Path.splitext (d ++ stem ++ String "." ext) = ((d ++ stem)%string, String "." ext).
Proof.
  intros Hstem Hdots Hext Hsep.
  assert (Hdot : Path.rfind "." (String "." ext) = 0)
    by (cbn [Path.rfind]; rewrite Hext; reflexivity).
  assert (Hsl : Path.rfind "/" (String "." ext) = -1)
    by (cbn [Path.rfind]; rewrite Hsep; reflexivity).
  pose proof (rfind_range "/" d) as Hd.
  assert (Hsepv : Path.rfind "/" (d ++ stem ++ String "." ext) = Path.rfind "/" d).
  { rewrite rfind_app_none; [reflexivity|]. now rewrite rfind_app_none. }
  assert (Hdotv : Path.rfind "." (d ++ stem ++ String "." ext)
                  = Z.of_nat (String.length (d ++ stem))).
  { rewrite str_length_app, rfind_app_some; rewrite rfind_app_some, Hdot; lia. }
  unfold Path.splitext. rewrite Hsepv, Hdotv.
  set (sep := Path.rfind "/" d) in *.
  replace (sep <? Z.of_nat (String.length (d ++ stem))) with true
    by (symmetry; apply Z.ltb_lt; rewrite str_length_app; lia).
  rewrite path_drop_app_le by lia.
  rewrite <- (str_app_assoc _ stem).
  replace (Z.to_nat (Z.of_nat (String.length (d ++ stem)) - (sep + 1)))
    with (String.length (Path.drop (Z.to_nat (sep + 1)) d ++ stem))
    by (rewrite !str_length_app, path_drop_length; lia).
  rewrite path_take_app_length, all_app, Hdots, andb_false_r. simpl.
  rewrite <- str_app_assoc, Nat2Z.id.
  now rewrite path_take_app_length, path_drop_app_length.
Qed.

(** [os.path.splitext] cuts the path in two pieces that concatenate back to
    it; the extension is empty or is a dot followed by characters among which
    there is neither a dot nor a slash. *)
Lemma splitext_join_ext (p : string) :
  ((Path.splitext p).1 ++ (Path.splitext p).2)%string = p
  /\ ((Path.splitext p).2 = EmptyString
      \/ exists rest : string,
           (Path.splitext p).2 = String "." rest
           /\ Path.rfind "." rest = -1 /\ Path.rfind "/" rest = -1).
Proof.
  unfold Path.splitext.
  destruct ((Path.rfind "/" p <? Path.rfind "." p) && _) eqn:E; simpl.
  - split; [apply path_take_drop|]. right.
    apply andb_prop in E as [Hlt%Z.ltb_lt _].
    pose proof (rfind_range "/" p) as Hs.
    destruct (rfind_drop "." p) as (rest & Hd & Hrest); [lia|].
    exists rest. split; [exact Hd|]. split; [exact Hrest|].
    apply (rfind_cons_none "/" "."). rewrite <- Hd. apply rfind_drop_lt. lia.
  - split; [apply str_app_nil_r|now left].
Qed.

(** A path that [splitext] leaves whole stays whole with [_clean] appended. *)
Lemma splitext_whole_clean (p : string) :
  (Path.splitext p).2 = EmptyString ->
  Path.splitext (p ++ "_clean") = ((p ++ "_clean")%string, EmptyString).
Proof.
  intros Hext.
  pose proof (rfind_range "/" p) as Hs. pose proof (rfind_range "." p) as Hd.
  assert (Hcond :
    (Path.rfind "/" p <? Path.rfind "." p)
    && negb (Str.all Path.is_dot
               (Path.take (Z.to_nat (Path.rfind "." p - (Path.rfind "/" p + 1)))
                  (Path.drop (Z.to_nat (Path.rfind "/" p + 1)) p))) = false).
  { destruct (_ && _) eqn:E; [|reflexivity]. exfalso.
    unfold Path.splitext in Hext. cbv zeta in Hext. rewrite E in Hext. simpl in Hext.
    apply andb_prop in E as [Hlt%Z.ltb_lt _].
    apply (f_equal String.length) in Hext. rewrite path_drop_length in Hext.
    simpl in Hext. lia. }
  unfold Path.splitext. cbv zeta.
  rewrite !(rfind_app_none _ p "_clean") by reflexivity.
  destruct (Path.rfind "/" p <? Path.rfind "." p) eqn:Hlt; [|reflexivity].
  apply Z.ltb_lt in Hlt. simpl in Hcond.
  rewrite path_drop_app_le by lia.
  rewrite path_take_app_le by (rewrite path_drop_length; lia).
  now rewrite Hcond.
Qed.

(** X1: the output path of [bleep.py] is six characters longer than the
    input path, so it is never the input file, and it has the stem of the
    input followed by [_clean] and the extension of the input. *)
Theorem output_path_keeps_extension (input_path : string) :
  String.length (output_path input_path) = (String.length input_path + 6)%nat
  /\ output_path input_path <> input_path
  /\ Path.splitext (output_path input_path)
     = (((Path.splitext input_path).1 ++ "_clean")%string, (Path.splitext input_path).2).
Proof.
  destruct (splitext_join_ext input_path) as [Hjoin Hext].
  assert (Hout : output_path input_path
                 = ((Path.splitext input_path).1 ++ "_clean"
                    ++ (Path.splitext input_path).2)%string).
  { unfold output_path. now destruct (Path.splitext input_path). }
  assert (Hlen : String.length (output_path input_path)
                 = (String.length input_path + 6)%nat).
  { rewrite Hout. rewrite <- Hjoin at 3. rewrite !str_length_app. simpl. lia. }
  split; [exact Hlen|]. split; [intros Heq; rewrite Heq in Hlen; lia|].
  rewrite Hout. destruct Hext as [Hnone|(rest & Hrest & Hdot & Hsep)].
  - rewrite Hnone in *. rewrite str_app_nil_r in Hjoin. rewrite Hjoin, str_app_nil_r.
    now apply splitext_whole_clean.
  - rewrite Hrest. now apply splitext_stem.
Qed.

(** The output path for [audio.mp3] in any directory prefix. *)
Lemma output_path_audio (d : string) :
  output_path (d ++ "audio.mp3") = (d ++ "audio_clean.mp3")%string.
Proof.
  unfold output_path.
  change "audio.mp3"%string with ("audio" ++ String "." "mp3")%string.
  rewrite (splitext_stem d "audio" "mp3") by reflexivity.
  now rewrite str_app_assoc.
Qed.

(** X3: the file that [bleepvideo.py] looks for after running [bleep.py] on
    [tmpdir/audio.mp3], namely [tmpdir/audio_clean.mp3], is the output path
    that [bleep.py] computes for that input, whatever the temporary
    directory is called. *)
Theorem clean_audio_is_output_path (tmpdir : string) :
  output_path (Path.join tmpdir "audio.mp3") = Path.join tmpdir "audio_clean.mp3".
Proof.
  unfold Path.join. change (Path.startswith "/" "audio.mp3") with false.
  change (Path.startswith "/" "audio_clean.mp3") with false. cbv iota.
  destruct (Str.is_empty tmpdir || Path.endswith "/" tmpdir); [apply output_path_audio|].
  rewrite <- !(str_app_assoc tmpdir "/"). apply output_path_audio.
Qed.

(** ** [bleepvideo.py] *)

(** The commands of a run that goes through every step. *)
Lemma video_main_unfold (w : Video.world) (input : string) (mode : Mode) (model : string)
    (cmds : list Video.command) (video_path out : string) :
  Video.missing w input = [] -> Video.has_bleep_script w = true ->
  Video.get_video w input = (cmds, Some (video_path, out)) ->
  Video.main w input mode model
  = let temp_audio := Path.join (Video.tmpdir w) "audio.mp3" in
    let clean_audio := Path.join (Video.tmpdir w) "audio_clean.mp3" in
    let c1 := cmds ++ [Video.RunExtract video_path temp_audio] in
    let c2 := c1 ++ [Video.RunBleep temp_audio mode model] in
    let c3 := c2 ++ [Video.RunMerge video_path clean_audio out] in
    if negb (Video.extract_returncode w =? 0) then Video.stop c1 1
    else if negb (Video.bleep_returncode w =? 0) then Video.stop c2 1
    else if negb (Video.clean_audio_exists w) then Video.stop c2 0
    else if negb (Video.merge_returncode w =? 0) then Video.stop c3 1
    else {| Video.commands := c3; Video.status := 0; Video.saved := Some out |}.
Proof.
  intros Hm Hb Hv. unfold Video.main. now rewrite Hm, Hb, Hv.
Qed.



Lemma str_app_inv_head (s t u : string) : (s ++ t = s ++ u)%string -> t = u.
Proof.
  induction s as [|c s IH]; [trivial|]. rewrite !str_app_cons. intros [= H]. now apply IH.
Qed.

(** The first step runs yt-dlp, once, for a URL and nothing for a local file. *)
Lemma get_video_commands (w : Video.world) (input : string) :
  (Video.is_url input = false /\ (Video.get_video w input).1 = [])
  \/ (Video.is_url input = true
      /\ (Video.get_video w input).1
         = [Video.RunYtDlp input (Path.join (Video.tmpdir w) "%(title)s.%(ext)s")]).
Proof.
  unfold Video.get_video, Video.download_video.
  destruct (Video.is_url input); [right|left]; split; reflexivity.
Qed.

(** X16: the commands of a run of [bleepvideo.py] are an initial part of
    the sequence: the download (for a URL input only), the audio extraction,
    [bleep.py] on the extracted audio with the mode and model given, the
    merge.  No step is run twice or out of order, and nothing is run after
    a step that ended the run. *)
Theorem video_commands_in_order (w : Video.world) (input : string) (mode : Mode)
    (model : string) :
  Video.commands (Video.main w input mode model)
  `prefix_of`
    (if Video.is_url input
     then [Video.RunYtDlp input (Path.join (Video.tmpdir w) "%(title)s.%(ext)s")]
     else [])
    ++ match (Video.get_video w input).2 with
       | None => []
       | Some (video_path, out) =>
           [ Video.RunExtract video_path (Path.join (Video.tmpdir w) "audio.mp3");
             Video.RunBleep (Path.join (Video.tmpdir w) "audio.mp3") mode model;
             Video.RunMerge video_path (Path.join (Video.tmpdir w) "audio_clean.mp3") out ]
       end.
Proof.
  assert (Hc : (Video.get_video w input).1
               = if Video.is_url input
                 then [Video.RunYtDlp input (Path.join (Video.tmpdir w) "%(title)s.%(ext)s")]
                 else []).
  { destruct (get_video_commands w input) as [[-> ->]|[-> ->]]; reflexivity. }
  rewrite <- Hc. unfold Video.main.
  destruct (Video.missing w input); [|apply prefix_nil].
  destruct (Video.has_bleep_script w); [|apply prefix_nil]. simpl.
  destruct (Video.get_video w input) as [cmds [[video_path out]|]]; simpl.
  2:{ now rewrite app_nil_r. }
  destruct (Video.extract_returncode w =? 0); simpl;
    [|apply prefix_app, prefix_cons, prefix_nil].
  destruct (Video.bleep_returncode w =? 0); simpl;
    [|rewrite <- app_assoc; apply prefix_app; simpl; do 2 apply prefix_cons; apply prefix_nil].
  destruct (Video.clean_audio_exists w); simpl;
    [|rewrite <- app_assoc; apply prefix_app; simpl; do 2 apply prefix_cons; apply prefix_nil].
  destruct (Video.merge_returncode w =? 0); simpl;
    rewrite <- !app_assoc; apply prefix_app; simpl; reflexivity.
Qed.

(** X17: when [bleepvideo.py] runs the merge, the extraction and [bleep.py]
    have returned 0 and the clean audio file exists; the audio it merges is
    at the output path of [bleep.py] for the extracted audio; and for a local
    input the video read is the input, the output path differs from it and
    ends in [_clean.mp4]. *)
Theorem merge_requires (w : Video.world) (input : string) (mode : Mode) (model : string)
    (video_path clean_audio out : string) :
  Video.RunMerge video_path clean_audio out ∈ Video.commands (Video.main w input mode model) ->
  Video.extract_returncode w = 0 /\ Video.bleep_returncode w = 0
  /\ Video.clean_audio_exists w = true
  /\ clean_audio = output_path (Path.join (Video.tmpdir w) "audio.mp3")
  /\ (Video.is_url input = false ->
      video_path = input /\ out <> input
      /\ Path.splitext out = (((Path.splitext input).1 ++ "_clean")%string, ".mp4"%string)).
Proof.
  unfold Video.main.
  destruct (Video.missing w input); [|intros []%elem_of_nil].
  destruct (Video.has_bleep_script w); [|intros []%elem_of_nil]. simpl.
  pose proof (get_video_commands w input) as Hcmds.
  destruct (Video.get_video w input) as [cmds [[v o]|]] eqn:Hv; simpl in *.
  2:{ intros Hin. destruct Hcmds as [[_ ->]|[_ ->]].
      - now apply elem_of_nil in Hin.
      - apply list_elem_of_singleton in Hin. discriminate Hin. }
  assert (Hnot : Video.RunMerge video_path clean_audio out ∉ cmds).
  { destruct Hcmds as [[_ ->]|[_ ->]]; [apply not_elem_of_nil|].
    intros [=]%list_elem_of_singleton. }
  destruct (Video.extract_returncode w =? 0) eqn:He; simpl.
  2:{ intros [Hin|[=]%list_elem_of_singleton]%elem_of_app. contradiction. }
  destruct (Video.bleep_returncode w =? 0) eqn:Hb; simpl.
  2:{ rewrite <- app_assoc. intros [Hin|Hin]%elem_of_app; [contradiction|].
      simpl in Hin. repeat (apply elem_of_cons in Hin as [[=]|Hin]).
      now apply elem_of_nil in Hin. }
  destruct (Video.clean_audio_exists w) eqn:Hc; simpl.
  2:{ rewrite <- app_assoc. intros [Hin|Hin]%elem_of_app; [contradiction|].
      simpl in Hin. repeat (apply elem_of_cons in Hin as [[=]|Hin]).
      now apply elem_of_nil in Hin. }
  apply Z.eqb_eq in He, Hb.
  assert (Hmerge : Video.RunMerge video_path clean_audio out
                   ∈ (cmds ++ [Video.RunExtract v (Path.join (Video.tmpdir w) "audio.mp3")])
                     ++ [Video.RunBleep (Path.join (Video.tmpdir w) "audio.mp3") mode model]
                     ++ [Video.RunMerge v (Path.join (Video.tmpdir w) "audio_clean.mp3") o] ->
                   video_path = v /\ clean_audio = Path.join (Video.tmpdir w) "audio_clean.mp3"
                   /\ out = o).
  { rewrite <- app_assoc. intros [Hin|Hin]%elem_of_app; [contradiction|].
    simpl in Hin. apply elem_of_cons in Hin as [[=]|Hin].
    apply elem_of_cons in Hin as [[=]|Hin].
    apply list_elem_of_singleton in Hin. injection Hin as -> -> ->. tauto. }
  intros Hin.
  assert (Hin' : video_path = v /\ clean_audio = Path.join (Video.tmpdir w) "audio_clean.mp3"
                 /\ out = o).
  { apply Hmerge. destruct (Video.merge_returncode w =? 0); simpl in Hin;
      now rewrite <- app_assoc in Hin. }
  destruct Hin' as (-> & -> & ->).
  split; [exact He|]. split; [exact Hb|]. split; [reflexivity|].
  split.
  { unfold Path.join. change (Path.startswith "/" "audio.mp3") with false.
    change (Path.startswith "/" "audio_clean.mp3") with false. cbv iota.
    destruct (Str.is_empty (Video.tmpdir w) || Path.endswith "/" (Video.tmpdir w));
      [now rewrite output_path_audio|].
    rewrite <- !(str_app_assoc (Video.tmpdir w) "/"). now rewrite output_path_audio. }
  intros Hlocal. unfold Video.get_video in Hv. rewrite Hlocal in Hv.
  destruct (negb (Video.video_exists w)); [discriminate|]. injection Hv as _ <- <-.
  split; [reflexivity|]. split.
  - intros Heq. destruct (splitext_join_ext input) as [Hjoin Hext].
    rewrite <- Hjoin in Heq at 2. apply str_app_inv_head in Heq.
    rewrite <- Heq in Hext. destruct Hext as [[=]|(rest & [=] & _)].
  - change "_clean.mp4"%string with ("_clean" ++ String "." "mp4")%string.
    now apply splitext_stem.
Qed.

(** ** More on the wordlist loader *)

Lemma isspace_lower_char (c : ascii) : Str.isspace (Str.lower_char c) = Str.isspace c.
Proof. destruct c as [[] [] [] [] [] [] [] []]; reflexivity. Qed.

Lemma hash_lower_char (c : ascii) :
  (Str.code (Str.lower_char c) =? 35)%N = (Str.code c =? 35)%N.
Proof. destruct c as [[] [] [] [] [] [] [] []]; reflexivity. Qed.

Lemma is_empty_lower (s : string) : Str.is_empty (Str.lower s) = Str.is_empty s.
Proof. now destruct s. Qed.

Lemma lstrip_lower (s : string) : Str.lstrip (Str.lower s) = Str.lower (Str.lstrip s).
Proof.
  induction s as [|c s IH]; simpl; [reflexivity|].
  rewrite isspace_lower_char. now destruct (Str.isspace c).
Qed.

Lemma rstrip_lower (s : string) : Str.rstrip (Str.lower s) = Str.lower (Str.rstrip s).
Proof.
  induction s as [|c s IH]; simpl; [reflexivity|].
  rewrite IH, isspace_lower_char, is_empty_lower.
  now destruct (Str.isspace c && Str.is_empty (Str.rstrip s)).
Qed.

Lemma lstrip_idem (s : string) : Str.lstrip (Str.lstrip s) = Str.lstrip s.
Proof.
  induction s as [|c s IH]; simpl; [reflexivity|].
  destruct (Str.isspace c) eqn:E; [exact IH|]. simpl. now rewrite E.
Qed.

Lemma rstrip_idem (s : string) : Str.rstrip (Str.rstrip s) = Str.rstrip s.
Proof.
  induction s as [|c s IH]; simpl; [reflexivity|].
  destruct (Str.isspace c && Str.is_empty (Str.rstrip s)) eqn:E; [reflexivity|].
  simpl. now rewrite IH, E.
Qed.

Lemma rstrip_lstrip (s : string) : Str.rstrip (Str.lstrip s) = Str.lstrip (Str.rstrip s).
Proof.
  induction s as [|c s IH]; simpl; [reflexivity|].
  destruct (Str.isspace c) eqn:E; simpl.
  - rewrite IH. destruct (Str.is_empty (Str.rstrip s)) eqn:Ee; simpl.
    + destruct (Str.rstrip s); [reflexivity|discriminate].
    + now rewrite E.
  - now rewrite E.
Qed.

Lemma strip_idem (s : string) : Str.strip (Str.strip s) = Str.strip s.
Proof.
  unfold Str.strip. now rewrite rstrip_lstrip, rstrip_idem, lstrip_idem.
Qed.

Lemma strip_lower (s : string) : Str.strip (Str.lower s) = Str.lower (Str.strip s).
Proof. unfold Str.strip. now rewrite rstrip_lower, lstrip_lower. Qed.

Lemma rstrip_LF (s : string) : Str.rstrip (s ++ LF) = Str.rstrip s.
Proof.
  induction s as [|c s IH]; [reflexivity|]. rewrite str_app_cons. simpl. now rewrite IH.
Qed.

(** An entry of the loaded set is what the loader stores for the entry itself. *)
Lemma entry_fixed (file : option (list string)) (x : string) :
  x ∈ load_wordlist file ->
  Str.lower (Str.strip (x ++ LF)) = x
  /\ Str.is_empty x = false /\ Str.startswith_hash x = false.
Proof.
  destruct file as [lines|]; [|intros []%not_elem_of_empty].
  unfold load_wordlist. rewrite elem_of_fold_add_line.
  intros [[]%not_elem_of_empty|(line & _ & -> & He & Hh)].
  split; [|now split].
  unfold Str.strip at 1. rewrite rstrip_LF. fold (Str.strip (Str.lower (Str.strip line))).
  now rewrite strip_lower, strip_idem, lower_idem.
Qed.

(** X4: loading a concatenation of two files gives the union of the two
    sets, so neither the order of the lines nor a repeated line matters. *)
Theorem load_wordlist_app (lines1 lines2 : list string) :
  load_wordlist (Some (lines1 ++ lines2))
  = load_wordlist (Some lines1) ∪ load_wordlist (Some lines2).
Proof.
  apply set_eq. intros x. rewrite elem_of_union. unfold load_wordlist.
  rewrite !elem_of_fold_add_line. split.
  - intros [[]%not_elem_of_empty|(line & [Hin|Hin]%elem_of_app & Hx)];
      [left|right]; right; exists line; now split.
  - intros [[[]%not_elem_of_empty|(line & Hin & Hx)]|[[]%not_elem_of_empty|(line & Hin & Hx)]];
      right; exists line; (split; [apply elem_of_app; auto|exact Hx]).
Qed.

(** X5: writing the loaded words out, one per line, and loading that file
    gives the same set again. *)
Theorem load_wordlist_reload (file : option (list string)) :
  load_wordlist (Some (map (fun x : string => (x ++ LF)%string)
                          (elements (load_wordlist file))))
  = load_wordlist file.
Proof.
  apply set_eq. intros x. unfold load_wordlist at 1. rewrite elem_of_fold_add_line. split.
  - intros [[]%not_elem_of_empty|(line & Hin & -> & _)].
    apply list_elem_of_fmap in Hin as (y & -> & Hy%elem_of_elements).
    now destruct (entry_fixed file y Hy) as (-> & _).
  - intros Hx. right. destruct (entry_fixed file x Hx) as (Hfix & He & Hh).
    exists (x ++ LF)%string. rewrite Hfix. repeat split; try assumption.
    apply list_elem_of_fmap. exists x. split; [reflexivity|]. now apply elem_of_elements.
Qed.

(** ** More on the matcher *)

(** X6: a wordlist entry that holds a character other than a letter (a
    digit, an apostrophe, a space inside a phrase) matches no word of any
    transcript: adding it to the banned set changes no hit. *)
Theorem entry_with_non_letter_never_matches (x : string) (banned : gset string)
    (segments : list segment) :
  Str.all Str.isalpha x = false ->
  collect_hits ({[ x ]} ∪ banned) segments = collect_hits banned segments.
Proof.
  intros Hx. rewrite !collect_hits_map. f_equal. apply List.filter_ext.
  intros w. unfold is_banned. apply bool_decide_ext.
  rewrite elem_of_union, elem_of_singleton. split; [|now right].
  intros [Heq|Hin]; [|exact Hin].
  pose proof (join_alpha_all (Str.lower (word w))) as Hall.
  fold (clean_word (word w)) in Hall. rewrite Heq in Hall. congruence.
Qed.

(** X7: for a word with [0 <= start <= end], the hit starts at or after 0
    and is at least 80 ms long; it is at least 160 ms long when the word
    starts 80 ms or more into the audio. *)
Theorem hit_of_width (w : word_info) :
  (0 <= start w)%Q -> (start w <= end_ w)%Q ->
  0 <= (hit_of w).1
  /\ (hit_of w).1 + 80 <= (hit_of w).2
  /\ ((80 # 1000 <= start w)%Q -> (hit_of w).1 + 160 <= (hit_of w).2).
Proof.
  intros Hs Hse.
  assert (He : (0 <= end_ w)%Q) by (eapply Qle_trans; eassumption).
  unfold hit_of, PADDING_MS. simpl.
  rewrite !py_int_floor by now apply scaled_nonneg.
  assert (Hmono : Qfloor (Double.mul (Double.round (start w)) 1000)
                  <= Qfloor (Double.mul (Double.round (end_ w)) 1000)).
  { apply Qfloor_resp_le. now apply scaled_mono. }
  assert (H0 : 0 <= Qfloor (Double.mul (Double.round (start w)) 1000)).
  { change 0 with (Qfloor 0). apply Qfloor_resp_le. now apply scaled_nonneg. }
  split; [lia|]. split; [lia|]. intros H80.
  assert (80 <= Qfloor (Double.mul (Double.round (start w)) 1000)).
  { replace 80 with (Qfloor (Double.mul (Double.round (80 # 1000)) 1000))
      by (vm_compute; reflexivity).
    apply Qfloor_resp_le. apply scaled_mono; [discriminate|exact H80]. }
  lia.
Qed.

(** ** More on the edit loop *)

Section PastEnd.
Context {pydub : Pydub} {lengths : PydubLengths pydub}.

Lemma bleep_loop_past_end (plan : list hit) :
  Forall (fun h : hit => 0 <= h.1) plan ->
  forall a : AudioSegment,
    Exists (fun h : hit => len a < h.1) plan ->
    edit_loop bleep a plan = None.
Proof.
  induction 1 as [|h plan Hh _ IH]; intros a Hex; [now apply Exists_nil in Hex|].
  cbn [edit_loop]. destruct (edit_step bleep a h) as [a1|] eqn:H1; [|reflexivity]. simpl.
  destruct (bleep_step_len a a1 h Hh H1) as [Hlen Hin].
  apply IH. rewrite Hlen. apply Exists_cons in Hex as [Hbad|Hex]; [|exact Hex].
  unfold clamp_end in Hin. lia.
Qed.

Lemma hit_of_start_nonneg (banned : gset string) (segments : list segment) :
  Forall (fun h : hit => 0 <= h.1) (collect_hits banned segments).
Proof.
  rewrite collect_hits_map. apply Forall_forall. intros h Hin.
  apply list_elem_of_In, in_map_iff in Hin as (w & <- & _). unfold hit_of. simpl. lia.
Qed.

(** X11: in bleep mode, a matched word whose padded start lies past the end
    of the audio makes the run end in an exception (a tone of negative
    duration cannot be synthesised), whatever the other hits are: nothing
    is exported. *)
Theorem bleep_past_end_raises (wordlist : option (list string)) (segments : list segment)
    (source : AudioSegment) :
  Exists (fun h : hit => len source < h.1)
    (collect_hits (load_wordlist wordlist) segments) ->
  main true wordlist segments source bleep = Uncaught.
Proof.
  intros Hex. unfold main. simpl.
  destruct (decide (load_wordlist wordlist = ∅)) as [He|_].
  { rewrite He, collect_hits_map in Hex.
    rewrite (filter_none_banned ∅) in Hex; [now apply Exists_nil in Hex|].
    apply Forall_forall. intros w _. apply not_elem_of_empty. }
  pose proof (hit_of_start_nonneg (load_wordlist wordlist) segments) as Hpos.
  destruct (collect_hits (load_wordlist wordlist) segments) as [|h hits] eqn:Hh;
    [now apply Exists_nil in Hex|].
  unfold apply_plan. rewrite bleep_loop_past_end; [reflexivity| |].
  - now apply sorted_reverse_Forall.
  - unfold sorted_reverse. now rewrite merge_sort_Permutation.
Qed.

End PastEnd.

(** ** The two scripts together *)

Section Together.
Context {pydub : Pydub}.

Lemma matched_none_empty (segments : list segment) :
  List.filter (is_banned ∅) (transcript_words segments) = [].
Proof.
  apply filter_none_banned. apply Forall_forall. intros w _. apply not_elem_of_empty.
Qed.

(** Without a matched word the run of [bleep.py] ends by [sys.exit(0)]. *)
Lemma main_no_match (wordlist : option (list string)) (segments : list segment)
    (source : AudioSegment) (mode : Mode) :
  List.filter (is_banned (load_wordlist wordlist)) (transcript_words segments) = [] ->
  main true wordlist segments source mode = Exit 0.
Proof.
  intros Hm. unfold main. simpl.
  destruct (decide (load_wordlist wordlist = ∅)); [reflexivity|].
  now rewrite collect_hits_map, Hm.
Qed.

(** With a matched word, silence mode exports. *)
Lemma main_silence_match (wordlist : option (list string)) (segments : list segment)
    (source : AudioSegment) :
  List.Forall (fun w => (0 <= start w)%Q /\ (start w <= end_ w)%Q)
    (transcript_words segments) ->
  List.filter (is_banned (load_wordlist wordlist)) (transcript_words segments) <> [] ->
  exists out : AudioSegment,
    main true wordlist segments source silence
    = Exported
        (length (List.filter (is_banned (load_wordlist wordlist)) (transcript_words segments)))
        out.
Proof.
  intros Hw Hm. unfold main. simpl.
  destruct (decide (load_wordlist wordlist = ∅)) as [He|_].
  { rewrite He in Hm. now rewrite matched_none_empty in Hm. }
  pose proof (collect_hits_intervals (load_wordlist wordlist) segments Hw) as Hi.
  pose proof (collect_hits_map (load_wordlist wordlist) segments) as Hmap.
  destruct (collect_hits (load_wordlist wordlist) segments) as [|h hits] eqn:Hh.
  { symmetry in Hmap. apply map_eq_nil in Hmap. contradiction. }
  apply sorted_reverse_Forall in Hi.
  destruct (silence_loop_total _ Hi source) as [out Hout].
  exists out. unfold apply_plan. rewrite Hout.
  f_equal. rewrite Hmap. apply length_map.
Qed.

(** X13: in silence mode, a run on an existing input and a transcript whose
    words have [0 <= start <= end] never ends in an exception: its exit
    status is 0, the number of edits is the number of words whose cleaned
    text is banned, and a file is exported exactly when there is such a word. *)
Theorem silence_run_counts (wordlist : option (list string)) (segments : list segment)
    (source : AudioSegment) :
  List.Forall (fun w => (0 <= start w)%Q /\ (start w <= end_ w)%Q)
    (transcript_words segments) ->
  exit_status (main true wordlist segments source silence) = 0
  /\ edits_performed (main true wordlist segments source silence)
     = length (List.filter (is_banned (load_wordlist wordlist)) (transcript_words segments))
  /\ (is_Some (output_file (main true wordlist segments source silence))
      <-> List.filter (is_banned (load_wordlist wordlist)) (transcript_words segments) <> []).
Proof.
  intros Hw.
  destruct (List.filter (is_banned (load_wordlist wordlist)) (transcript_words segments))
    as [|m ms] eqn:Hm.
  - rewrite (main_no_match wordlist segments source silence Hm). simpl.
    split; [reflexivity|]. split; [reflexivity|].
    split; [intros [? [=]]|intros []; reflexivity].
  - destruct (main_silence_match wordlist segments source Hw) as [out Hout];
      [rewrite Hm; discriminate|].
    rewrite Hout, Hm. simpl. split; [reflexivity|]. split; [reflexivity|].
    split; [discriminate|eauto].
Qed.

(** X19: when [bleep.py] finds no banned word (the wordlist is empty, or no
    word of the transcript is banned), in either mode, [bleepvideo.py]
    ends with status 0 after running [bleep.py], reports no saved video and
    does not run the merge. *)
Theorem video_no_match (w : Video.world) (input model : string) (mode : Mode)
    (cmds : list Video.command) (video_path out : string)
    (wordlist : option (list string)) (segments : list segment) (source : AudioSegment) :
  Video.missing w input = [] -> Video.has_bleep_script w = true ->
  Video.get_video w input = (cmds, Some (video_path, out)) ->
  Video.extract_returncode w = 0 ->
  Video.observes w (main true wordlist segments source mode) ->
  List.filter (is_banned (load_wordlist wordlist)) (transcript_words segments) = [] ->
  Video.status (Video.main w input mode model) = 0
  /\ Video.saved (Video.main w input mode model) = None
  /\ Video.commands (Video.main w input mode model)
     = cmds ++ [ Video.RunExtract video_path (Path.join (Video.tmpdir w) "audio.mp3");
                 Video.RunBleep (Path.join (Video.tmpdir w) "audio.mp3") mode model ].
Proof.
  intros Hmiss Hb Hv He [Hrc Hfile] Hm.
  rewrite (main_no_match wordlist segments source mode Hm) in Hrc, Hfile.
  simpl in Hrc. rewrite bool_decide_false in Hfile by (simpl; intros [? [=]]).
  rewrite (video_main_unfold w input mode model cmds video_path out Hmiss Hb Hv). cbv zeta.
  rewrite He, Hrc, Hfile. simpl.
  rewrite <- app_assoc. now repeat split.
Qed.

(** X20: in silence mode, when some word of a transcript with
    [0 <= start <= end] is banned, [bleepvideo.py] goes on to the merge
    after [bleep.py], and reports the video as saved exactly when the merge
    returns 0. *)
Theorem video_silence_merges (w : Video.world) (input model : string)
    (cmds : list Video.command) (video_path out : string)
    (wordlist : option (list string)) (segments : list segment) (source : AudioSegment) :
  Video.missing w input = [] -> Video.has_bleep_script w = true ->
  Video.get_video w input = (cmds, Some (video_path, out)) ->
  Video.extract_returncode w = 0 ->
  Video.observes w (main true wordlist segments source silence) ->
  List.Forall (fun w => (0 <= start w)%Q /\ (start w <= end_ w)%Q)
    (transcript_words segments) ->
  List.filter (is_banned (load_wordlist wordlist)) (transcript_words segments) <> [] ->
  Video.commands (Video.main w input silence model)
  = cmds ++ [ Video.RunExtract video_path (Path.join (Video.tmpdir w) "audio.mp3");
              Video.RunBleep (Path.join (Video.tmpdir w) "audio.mp3") silence model;
              Video.RunMerge video_path (Path.join (Video.tmpdir w) "audio_clean.mp3") out ]
  /\ (Video.saved (Video.main w input silence model) = Some out
      <-> Video.merge_returncode w = 0).
Proof.
  intros Hmiss Hb Hv He [Hrc Hfile] Hw Hm.
  destruct (main_silence_match wordlist segments source Hw Hm) as [audio Hout].
  rewrite Hout in Hrc, Hfile. simpl in Hrc.
  rewrite bool_decide_true in Hfile by (simpl; eauto).
  rewrite (video_main_unfold w input silence model cmds video_path out Hmiss Hb Hv). cbv zeta.
  rewrite He, Hrc, Hfile. simpl.
  destruct (Video.merge_returncode w =? 0) eqn:Hmg; simpl; rewrite <- !app_assoc; simpl.
  - apply Z.eqb_eq in Hmg. now repeat split.
  - apply Z.eqb_neq in Hmg. split; [reflexivity|]. split; [discriminate|contradiction].
Qed.

End Together.

(** ** Where the output goes *)

(** Appending a name part without slash to a base keeps the directory part. *)
Lemma same_directory (base ext suffix : string) :
  Path.rfind "/" ext = -1 -> Path.rfind "/" suffix = -1 ->
  Path.rfind "/" (base ++ suffix) = Path.rfind "/" (base ++ ext)
  /\ Path.take (Z.to_nat (Path.rfind "/" (base ++ ext) + 1)) (base ++ suffix)
     = Path.take (Z.to_nat (Path.rfind "/" (base ++ ext) + 1)) (base ++ ext).
Proof.
  intros He Hs. rewrite !rfind_app_none by assumption. split; [reflexivity|].
  pose proof (rfind_range "/" base).
  now rewrite !path_take_app_le by lia.
Qed.

Lemma splitext_ext_no_sep (p : string) : Path.rfind "/" (Path.splitext p).2 = -1.
Proof.
  destruct (splitext_join_ext p) as [_ [->|(rest & -> & _ & Hsep)]]; [reflexivity|].
  cbn [Path.rfind]. now rewrite Hsep.
Qed.

(** X2: the output path of [bleep.py] lies in the directory of the input:
    both paths have their last slash at the same place and agree up to it. *)
Theorem output_path_same_directory (input_path : string) :
  Path.rfind "/" (output_path input_path) = Path.rfind "/" input_path
  /\ Path.take (Z.to_nat (Path.rfind "/" input_path + 1)) (output_path input_path)
     = Path.take (Z.to_nat (Path.rfind "/" input_path + 1)) input_path.
Proof.
  destruct (splitext_join_ext input_path) as [Hjoin _].
  pose proof (splitext_ext_no_sep input_path) as Hsep.
  assert (Hout : output_path input_path
                 = ((Path.splitext input_path).1 ++ "_clean"
                    ++ (Path.splitext input_path).2)%string).
  { unfold output_path. now destruct (Path.splitext input_path). }
  assert (Hs : Path.rfind "/" ("_clean" ++ (Path.splitext input_path).2) = -1)
    by now rewrite rfind_app_none.
  pose proof (same_directory (Path.splitext input_path).1 (Path.splitext input_path).2
                _ Hsep Hs) as H.
  rewrite Hjoin in H. rewrite Hout. exact H.
Qed.

Lemma rfind_app_none_l (c : ascii) (s t : string) :
  Path.rfind c (s ++ t) = -1 -> Path.rfind c s = -1.
Proof.
  rewrite rfind_app. pose proof (rfind_range c t).
  destruct (0 <=? Path.rfind c t) eqn:E; [lia|trivial].
Qed.

Lemma basename_no_sep (p : string) : Path.rfind "/" (Path.basename p) = -1.
Proof. unfold Path.basename. apply rfind_drop_lt. pose proof (rfind_range "/" p). lia. Qed.

(** X18: [bleepvideo.py] writes next to a local input (the output path has
    its last slash where the input has it and agrees with the input up to
    it), and for a URL it writes into the current directory: the output
    path is the current directory joined with a name that holds no slash,
    the video being the first [.mp4] entry of the download directory. *)
Theorem video_output_location (w : Video.world) (input : string)
    (cmds : list Video.command) (video_path out : string) :
  Video.get_video w input = (cmds, Some (video_path, out)) ->
  (Video.is_url input = false ->
   video_path = input
   /\ Path.rfind "/" out = Path.rfind "/" input
   /\ Path.take (Z.to_nat (Path.rfind "/" input + 1)) out
      = Path.take (Z.to_nat (Path.rfind "/" input + 1)) input)
  /\ (Video.is_url input = true ->
      Video.yt_dlp_returncode w = 0
      /\ exists (rest : list string) (f name : string),
           List.filter (Path.endswith ".mp4") (Video.listing w) = f :: rest
           /\ video_path = Path.join (Video.tmpdir w) f
           /\ out = Path.join (Video.cwd w) name
           /\ Path.rfind "/" name = -1).
Proof.
  unfold Video.get_video, Video.download_video. intros Hv.
  destruct (Video.is_url input); split; try discriminate; intros _.
  - destruct (Video.yt_dlp_returncode w =? 0) eqn:Hrc; simpl in Hv; [|discriminate].
    apply Z.eqb_eq in Hrc. split; [exact Hrc|].
    destruct (List.filter (Path.endswith ".mp4") (Video.listing w)) as [|f rest];
      [discriminate|].
    injection Hv as _ <- <-. exists rest, f. eexists. repeat split.
    rewrite rfind_app_none by reflexivity.
    apply (rfind_app_none_l _ _ (Path.splitext (Path.basename (Path.join (Video.tmpdir w) f))).2).
    destruct (splitext_join_ext (Path.basename (Path.join (Video.tmpdir w) f))) as [-> _].
    apply basename_no_sep.
  - destruct (negb (Video.video_exists w)); [discriminate|]. injection Hv as _ <- <-.
    split; [reflexivity|].
    destruct (splitext_join_ext input) as [Hjoin _].
    pose proof (same_directory (Path.splitext input).1 (Path.splitext input).2
                  "_clean.mp4" (splitext_ext_no_sep input) eq_refl) as H.
    rewrite Hjoin in H. exact H.
Qed.

(** ** Runs on sample inputs *)

Lemma merge_requires_run :
  Video.RunMerge "talk/show.mkv" "/tmp/tmpk3/audio_clean.mp3" "talk/show_clean.mp4"
    ∈ Video.commands (Video.main (Samples.world 0 true 0) "talk/show.mkv" silence "base")
  /\ "talk/show_clean.mp4"%string <> "talk/show.mkv"%string.
Proof.
  assert (Hin : Video.RunMerge "talk/show.mkv" "/tmp/tmpk3/audio_clean.mp3"
                  "talk/show_clean.mp4"
                ∈ Video.commands
                    (Video.main (Samples.world 0 true 0) "talk/show.mkv" silence "base")).
  { vm_compute. do 2 apply list_elem_of_further. apply list_elem_of_here. }
  split; [exact Hin|].
  destruct (merge_requires _ _ _ _ _ _ _ Hin) as (_ & _ & _ & _ & Hlocal).
  now destruct (Hlocal eq_refl) as (_ & Hne & _).
Defined.

Lemma entry_with_non_letter_run :
  Str.all Str.isalpha "don't" = false
  /\ collect_hits ({[ "don't"%string ]} ∪ {[ "hell"%string ]}) Samples.talk
     = collect_hits {[ "hell"%string ]} Samples.talk.
Proof.
  split; [reflexivity|].
  exact (entry_with_non_letter_never_matches "don't" {[ "hell"%string ]} Samples.talk eq_refl).
Defined.

Lemma hit_of_width_run :
  (hit_of {| word := "hell"; start := 10; end_ := 104 # 10 |}).1 + 160
  <= (hit_of {| word := "hell"; start := 10; end_ := 104 # 10 |}).2.
Proof.
  assert (H0 : (0 <= 10)%Q) by (vm_compute; discriminate).
  assert (H1 : (10 <= 104 # 10)%Q) by (vm_compute; discriminate).
  assert (H2 : (80 # 1000 <= 10)%Q) by (vm_compute; discriminate).
  exact (proj2 (proj2 (hit_of_width {| word := "hell"; start := 10; end_ := 104 # 10 |} H0 H1))
           H2).
Defined.

Lemma bleep_past_end_run :
  @main Levels.pydub true Samples.wordlist Samples.late (Levels.steady 100 (-20)) bleep
  = Uncaught.
Proof.
  apply (@bleep_past_end_raises Levels.pydub Levels_lengths).
  change (collect_hits (load_wordlist Samples.wordlist) Samples.late) with [(9920, 10480)].
  apply Exists_cons. left. vm_compute. reflexivity.
Defined.

Lemma sample_talk_well_formed :
  List.Forall (fun w => (0 <= start w)%Q /\ (start w <= end_ w)%Q)
    (transcript_words Samples.talk).
Proof. repeat constructor; vm_compute; discriminate. Qed.

Lemma main_keeps_duration_run :
  exists (n : nat) (out : list (option Z)),
    @main Levels.pydub true Samples.wordlist Samples.talk (Levels.steady 200 (-20)) bleep
    = @Exported Levels.pydub n out
    /\ @len Levels.pydub out = 200.
Proof.
  destruct (@main Levels.pydub true Samples.wordlist Samples.talk
              (Levels.steady 200 (-20)) bleep) as [s|n out|] eqn:H;
    [vm_compute in H; discriminate H| |vm_compute in H; discriminate H].
  exists n, out. split; [reflexivity|].
  exact (@main_keeps_duration Levels.pydub Levels_lengths Samples.wordlist
           Samples.talk (Levels.steady 200 (-20)) out bleep true n
           sample_talk_well_formed H).
Defined.

Lemma silence_run_counts_run :
  edits_performed
    (@main Levels.pydub true Samples.wordlist Samples.talk (Levels.steady 200 (-20)) silence)
  = 1%nat.
Proof.
  exact (proj1 (proj2 (@silence_run_counts Levels.pydub Samples.wordlist Samples.talk
                         (Levels.steady 200 (-20)) sample_talk_well_formed))).
Defined.

Lemma video_no_match_run :
  Video.status (Video.main (Samples.world 0 false 0) "talk/show.mkv" bleep "base") = 0
  /\ Video.saved (Video.main (Samples.world 0 false 0) "talk/show.mkv" bleep "base") = None.
Proof.
  assert (Hobs : @Video.observes Levels.pydub (Samples.world 0 false 0)
                   (@main Levels.pydub true None Samples.talk (Levels.steady 200 (-20)) bleep))
    by (split; reflexivity).
  assert (Hm : List.filter (is_banned (load_wordlist None)) (transcript_words Samples.talk)
               = []) by reflexivity.
  destruct (@video_no_match Levels.pydub (Samples.world 0 false 0) "talk/show.mkv" "base"
              bleep [] "talk/show.mkv" "talk/show_clean.mp4"
              None Samples.talk (Levels.steady 200 (-20))
              eq_refl eq_refl eq_refl eq_refl Hobs Hm) as (Hs & Hn & _).
  now split.
Defined.

Lemma video_silence_merges_run :
  Video.saved (Video.main (Samples.world 0 true 0) "talk/show.mkv" silence "base")
  = Some "talk/show_clean.mp4"%string.
Proof.
  assert (Hobs : @Video.observes Levels.pydub (Samples.world 0 true 0)
                   (@main Levels.pydub true Samples.wordlist Samples.talk
                      (Levels.steady 200 (-20)) silence))
    by (split; reflexivity).
  assert (Hm : List.filter (is_banned (load_wordlist Samples.wordlist))
                 (transcript_words Samples.talk) <> [])
    by (vm_compute; discriminate).
  exact (proj2 (proj2 (@video_silence_merges Levels.pydub (Samples.world 0 true 0)
                         "talk/show.mkv" "base" [] "talk/show.mkv" "talk/show_clean.mp4"
                         Samples.wordlist Samples.talk (Levels.steady 200 (-20))
                         eq_refl eq_refl eq_refl eq_refl Hobs sample_talk_well_formed Hm))
           eq_refl).
Defined.

Lemma video_output_location_run :
  Path.rfind "/" "talk/show_clean.mp4" = Path.rfind "/" "talk/show.mkv"
  /\ Path.take (Z.to_nat (Path.rfind "/" "talk/show.mkv" + 1)) "talk/show_clean.mp4"
     = Path.take (Z.to_nat (Path.rfind "/" "talk/show.mkv" + 1)) "talk/show.mkv".
Proof.
  destruct (video_output_location (Samples.world 0 true 0) "talk/show.mkv" []
              "talk/show.mkv" "talk/show_clean.mp4" eq_refl) as [Hlocal _].
  destruct (Hlocal eq_refl) as (_ & Hsep & Hdir). now split.
Defined.
